(** * AI-datavalidator: a shallow embedding of [AI_datavalidator.py]

    The development follows the layout of the Python module: the field
    validators ([validate_email], [validate_password], [validate_date],
    [validate_phone]), the [DataValidator] class with its running
    statistics, and [detect_data_patterns].

    Modelling conventions.
    - A Python [str] is a [string]; its characters are the code points
      below 256 (Latin-1), which is where the character classes, the
      digit class and [str.lower] used by the module are given exactly.
    - A Python [int] is a [Z].  The floats of the module are rationals
      ([Q]): every password score is a multiple of 0.25 of small
      magnitude, which binary64 represents exactly.  The two quotients
      ([pass_rate], [avg_length]) are not exact in binary64; they are
      given twice: as the interpreter computes them, each operation
      rounded to the nearest binary64 number (modules [Binary64] and
      [Machine]), and as the exact rational value of the expression
      ([DataValidator.get_statistics], [detect_data_patterns]), which
      is what the order properties of the two values are proved on.
    - A [dict] whose keys are data (a record, the verdicts of a record,
      the domain histogram) is a [gmap]; a [dict] with a fixed layout
      is a [Record].
    - Exceptions are explicit: a computation that may raise has type
      [result A]. *)

From Stdlib Require Import Ascii String QArith.
From Stdlib Require PrimFloat FloatOps SpecFloat Uint63.
From stdpp Require Import gmap strings list fin_maps pretty.

Open Scope Z_scope.
Set Warnings "-register-all".

(** ** Characters and strings *)

Module Str.

Definition code (c : ascii) : N := N_of_ascii c.

Definition in_range (lo hi : ascii) (c : ascii) : bool :=
  ((code lo <=? code c) && (code c <=? code hi))%N.

(** [A-Z], [a-z], [a-zA-Z] *)
Definition is_upper (c : ascii) : bool := in_range "A" "Z" c.
Definition is_lower (c : ascii) : bool := in_range "a" "z" c.
Definition is_alpha (c : ascii) : bool := is_upper c || is_lower c.

(** [\d]: among the code points below 256 the decimal digits are
    [0-9] only. *)
Definition is_digit (c : ascii) : bool := in_range "0" "9" c.

Definition chars (s : string) : list ascii := list_ascii_of_string s.
Definition of_chars (l : list ascii) : string := string_of_list_ascii l.

(** [c in "..."] for a single character *)
Definition one_of (set : list ascii) (c : ascii) : bool :=
  bool_decide (c ∈ set).

(** [len(s)] *)
Definition len (s : string) : Z := Z.of_nat (length (chars s)).

(** [str.lower] on one code point: [A-Z] and the Latin-1 capitals
    U+00C0..U+00DE (the multiplication sign U+00D7 apart) move up by
    32, everything else is kept. *)
Definition lower_char (c : ascii) : ascii :=
  let n := code c in
  if ((65 <=? n) && (n <=? 90)
      || (192 <=? n) && (n <=? 222) && negb (n =? 215))%N
  then ascii_of_N (n + 32) else c.

Definition lower (s : string) : string := of_chars (lower_char <$> chars s).

(** [s.startswith(p)] and [p in s] on character lists *)
Fixpoint starts_with (p s : list ascii) : bool :=
  match p, s with
  | [], _ => true
  | _ :: _, [] => false
  | a :: p', b :: s' => bool_decide (a = b) && starts_with p' s'
  end.

Fixpoint contains (p s : list ascii) : bool :=
  starts_with p s ||
  match s with
  | [] => false
  | _ :: s' => contains p s'
  end.

(** [p in s] *)
Definition str_in (p s : string) : bool := contains (chars p) (chars s).

(** [s.split(sep)] for a one-character separator: the pieces between
    the occurrences of [sep], [n + 1] pieces for [n] occurrences. *)
Fixpoint split_chars (sep : ascii) (s : list ascii) : list (list ascii) :=
  match s with
  | [] => [[]]
  | c :: s' =>
      if bool_decide (c = sep) then [] :: split_chars sep s'
      else match split_chars sep s' with
           | [] => [[c]]
           | piece :: pieces => (c :: piece) :: pieces
           end
  end.

Definition split (sep : ascii) (s : string) : list string :=
  of_chars <$> split_chars sep (chars s).

End Str.

(** ** The fragment of [re] the module uses

    Patterns are built from literal characters, character classes,
    greedy repetition of a class with a lower bound ([[...]+] is
    [Rep _ 1], [[...]{2,}] is [Rep _ 2]), concatenation and the two
    anchors.  The matcher is the backtracking one, in continuation
    passing style: [rmatch r pos s k] matches [r] at offset [pos] in
    front of the remaining input [s] and hands what is left to [k]. *)

Module Re.

Inductive regex : Type :=
| Chr (c : ascii)
| Cls (p : ascii → bool)
| Rep (p : ascii → bool) (n : nat)
| Cat (r1 r2 : regex)
| Bos
| Eos.

(** [$] without [re.MULTILINE] holds at the end of the input and
    just before a newline that ends the input. *)
Definition at_end (s : list ascii) : bool :=
  match s with
  | [] => true
  | [c] => bool_decide (c = "010"%char)
  | _ => false
  end.

Fixpoint rep (p : ascii → bool) (n : nat) (pos : nat) (s : list ascii)
    (k : nat → list ascii → bool) {struct s} : bool :=
  match s with
  | c :: s' => p c && rep p (pred n) (S pos) s' k || (n =? 0)%nat && k pos s
  | [] => (n =? 0)%nat && k pos s
  end.

Fixpoint rmatch (r : regex) (pos : nat) (s : list ascii)
    (k : nat → list ascii → bool) {struct r} : bool :=
  match r with
  | Chr c =>
      match s with
      | c' :: s' => bool_decide (c' = c) && k (S pos) s'
      | [] => false
      end
  | Cls p =>
      match s with
      | c' :: s' => p c' && k (S pos) s'
      | [] => false
      end
  | Rep p n => rep p n pos s k
  | Cat r1 r2 => rmatch r1 pos s (λ pos' s', rmatch r2 pos' s' k)
  | Bos => (pos =? 0)%nat && k pos s
  | Eos => at_end s && k pos s
  end.

Definition accept : nat → list ascii → bool := λ _ _, true.

(** [re.match(r, s)] as a truth value: a match starting at offset 0 *)
Definition re_match (r : regex) (s : string) : bool :=
  rmatch r 0 (Str.chars s) accept.

Fixpoint search_from (r : regex) (pos : nat) (s : list ascii) : bool :=
  rmatch r pos s accept ||
  match s with
  | [] => false
  | _ :: s' => search_from r (S pos) s'
  end.

(** [bool(re.search(r, s))]: a match starting at some offset *)
Definition re_search (r : regex) (s : string) : bool :=
  search_from r 0 (Str.chars s).

(** [re.sub(r, '', s)] for a pattern [r] that is one character
    class: every character of the class is removed. *)
Definition re_sub_cls_empty (p : ascii → bool) (s : string) : string :=
  Str.of_chars (filter (λ c, p c = false) (Str.chars s)).

End Re.

Import Str Re.

(** ** Core validation functions *)

Definition email_local_char (c : ascii) : bool :=
  is_alpha c || is_digit c || one_of (chars "._%+-") c.

Definition email_domain_char (c : ascii) : bool :=
  is_alpha c || is_digit c || one_of (chars ".-") c.

(** [^[a-zA-Z0-9._%+-]+@[a-zA-Z0-9.-]+\.[a-zA-Z]{2,}$] *)
Definition email_pattern : regex :=
  Cat Bos
   (Cat (Rep email_local_char 1)
   (Cat (Chr "@")
   (Cat (Rep email_domain_char 1)
   (Cat (Chr ".")
   (Cat (Rep is_alpha 2) Eos))))).

Definition suspicious_patterns : list string := ["spam"; "fake"; "test"; "temp"].

Definition validate_email (email : string) : bool * string :=
  if negb (re_match email_pattern email) then (false, "Invalid email format")
  else if existsb (λ pattern, str_in pattern (lower email)) suspicious_patterns
       then (false, "Email appears suspicious")
       else (true, "Valid email").


(** *** Password scoring *)

Record ScoreReport : Type := {
  score : Q;
  rating : string;
  feedback : list string;
  checks_passed : Z;
  total_checks : Z
}.

(** The symbol class of the fourth check: the thirteen symbols up to
    the question mark, the double quote (code point 34), then the colon,
    the braces, the bar and the angle brackets. *)
Definition special_chars : list ascii :=
  chars "!@#$%^&*(),.?" ++ [ascii_of_nat 34] ++ chars ":{}|<>".

Definition is_special (c : ascii) : bool := one_of special_chars c.

(** The [checks] dict, in insertion order. *)
Definition password_checks (password : string) : list (string * bool) :=
  [ ("uppercase", re_search (Cls is_upper) password);
    ("lowercase", re_search (Cls is_lower) password);
    ("digits", re_search (Cls is_digit) password);
    ("special", re_search (Cls is_special) password) ].

Definition common_patterns : list string :=
  ["123456"; "password"; "qwerty"; "admin"].

Definition default_min_length : Z := 8.

Definition classify (score : Q) : string :=
  if Qle_bool 90%Q score then "Excellent"
  else if Qle_bool 70%Q score then "Good"
  else if Qle_bool 50%Q score then "Fair"
  else "Weak".

Definition validate_password (password : string) (min_length : Z) : ScoreReport :=
  let score : Q := 0%Q in
  let feedback : list string := [] in
  (* Check length *)
  let '(score, feedback) :=
    if len password >=? min_length then ((score + 25)%Q, feedback)
    else (score,
          feedback ++ ["Password should be at least " +:+ pretty min_length
                       +:+ " characters"]) in
  (* Check complexity *)
  let checks := password_checks password in
  let '(score, feedback) :=
    foldl (λ '(score, feedback) '(check_name, passed),
             if passed : bool then ((score + 18.75)%Q, feedback)
             else (score,
                   feedback ++ ["Add at least one " +:+ check_name
                                +:+ " character"]))
          (score, feedback) checks in
  (* Pattern detection *)
  let '(score, feedback) :=
    if existsb (λ pattern, str_in pattern (lower password)) common_patterns
    then ((score - 30)%Q, feedback ++ ["Avoid common password patterns"])
    else (score, feedback) in
  {| score := score;
     rating := classify score;
     feedback := feedback;
     checks_passed := foldl (λ acc b, acc + Z.b2z b) 0 checks.*2;
     total_checks := Z.of_nat (length checks) |}.

(** *** Exceptions *)

Inductive exn : Type :=
| ValueError
| TypeError
| IndexError
| ZeroDivisionError
| OverflowError.

Inductive result (A : Type) : Type :=
| Ok (a : A)
| Raise (e : exn).

Arguments Ok {A} a.
Arguments Raise {A} e.

#[global] Instance result_ret : MRet result := λ A a, Ok a.
#[global] Instance result_bind : MBind result := λ A B f m,
  match m with
  | Ok a => f a
  | Raise e => Raise e
  end.
#[global] Instance result_fmap : FMap result := λ A B f m,
  match m with
  | Ok a => Ok (f a)
  | Raise e => Raise e
  end.

(** [try: body  except ValueError: handler] *)
Definition try_except_ValueError {A : Type} (body : result A) (handler : result A)
    : result A :=
  match body with
  | Ok a => Ok a
  | Raise ValueError => handler
  | Raise e => Raise e
  end.

(** *** Dates *)

Record datetime : Type := {
  year : Z;
  month : Z;
  day : Z;
  hour : Z;
  minute : Z;
  second : Z;
  microsecond : Z
}.

Definition datetime_fields (d : datetime) : list Z :=
  [year d; month d; day d; hour d; minute d; second d; microsecond d].

Fixpoint lex_gt (a b : list Z) : bool :=
  match a, b with
  | x :: a', y :: b' => (y <? x) || (x =? y) && lex_gt a' b'
  | _, _ => false
  end.

(** [a > b] on naive datetimes *)
Definition datetime_gt (a b : datetime) : bool :=
  lex_gt (datetime_fields a) (datetime_fields b).

Definition is_leap (y : Z) : bool :=
  (y mod 4 =? 0) && (negb (y mod 100 =? 0) || (y mod 400 =? 0)).

Definition days_in_month (y m : Z) : Z :=
  if m =? 2 then (if is_leap y then 29 else 28)
  else if bool_decide (m ∈ [4; 6; 9; 11]) then 30 else 31.

(** What the [datetime] constructor accepts: [MINYEAR = 1],
    [MAXYEAR = 9999]. *)
Definition date_in_range (y m d : Z) : bool :=
  (1 <=? y) && (y <=? 9999) && (1 <=? m) && (m <=? 12)
  && (1 <=? d) && (d <=? days_in_month y m).

Definition digit_value (c : ascii) : Z := Z.of_N (code c) - 48.

Abbreviation parser A := (list ascii → list (A * list ascii)).

(** The directives of [_strptime], each as the list of its matches in
    the order the backtracking matcher tries them.
    [%Y] is [\d\d\d\d]. *)
Definition match_Y : parser Z := λ s,
  match s with
  | a :: b :: c :: d :: rest =>
      if is_digit a && is_digit b && is_digit c && is_digit d
      then [(1000 * digit_value a + 100 * digit_value b
             + 10 * digit_value c + digit_value d, rest)]
      else []
  | _ => []
  end.

Definition two (p1 p2 : ascii → bool) : parser Z := λ s,
  match s with
  | a :: b :: rest =>
      if p1 a && p2 b then [(10 * digit_value a + digit_value b, rest)] else []
  | _ => []
  end.

Definition one (p : ascii → bool) : parser Z := λ s,
  match s with
  | a :: rest => if p a then [(digit_value a, rest)] else []
  | _ => []
  end.

Definition is_chr (c : ascii) : ascii → bool := λ c', bool_decide (c' = c).

(** [%m] is [1[0-2]|0[1-9]|[1-9]]. *)
Definition match_m : parser Z := λ s,
  two (is_chr "1") (in_range "0" "2") s
  ++ two (is_chr "0") (in_range "1" "9") s
  ++ one (in_range "1" "9") s.

(** [%d] is [3[0-1]|[1-2]\d|0[1-9]|[1-9]| [1-9]]; [int] ignores the
    blank of the last alternative. *)
Definition match_d : parser Z := λ s,
  two (is_chr "3") (in_range "0" "1") s
  ++ two (in_range "1" "2") is_digit s
  ++ two (is_chr "0") (in_range "1" "9") s
  ++ one (in_range "1" "9") s
  ++ match s with
     | a :: rest => if is_chr " " a then one (in_range "1" "9") rest else []
     | [] => []
     end.

Definition match_lit (c : ascii) : parser unit := λ s,
  match s with
  | a :: rest => if is_chr c a then [((), rest)] else []
  | [] => []
  end.

(** All matches of the pattern of ["%Y-%m-%d"] at the start of [s],
    the one [re.match] returns first. *)
Definition match_ymd (s : list ascii) : list (Z * Z * Z * list ascii) :=
  '(y, s) ← match_Y s;
  '(_, s) ← match_lit "-" s;
  '(m, s) ← match_m s;
  '(_, s) ← match_lit "-" s;
  '(d, s) ← match_d s;
  [(y, m, d, s)].

(** [datetime.strptime(date_string, "%Y-%m-%d")] *)
Definition strptime (date_string : string) : result datetime :=
  match match_ymd (chars date_string) with
  | [] => Raise ValueError          (* does not match format *)
  | (y, m, d, rest) :: _ =>
      if bool_decide (rest ≠ []) then Raise ValueError   (* unconverted data *)
      else if date_in_range y m d
      then Ok {| year := y; month := m; day := d;
                 hour := 0; minute := 0; second := 0; microsecond := 0 |}
      else Raise ValueError         (* out of range *)
  end.

(** [now] is the reading of [datetime.now()] taken by this call. *)
Definition validate_date (now : datetime) (date_str : string)
    : result (bool * option datetime) :=
  try_except_ValueError
    (parsed_date ← strptime date_str;
     if datetime_gt parsed_date now then Ok (false, None)
     else Ok (true, Some parsed_date))
    (Ok (false, None)).

(** *** Phone numbers *)

Definition validate_phone (phone : string) : bool :=
  let digits := re_sub_cls_empty (λ c, negb (is_digit c)) phone in
  (10 <=? len digits) && (len digits <=? 15).

(** ** Data processing pipeline *)

(** The values that flow through the untyped dispatch of
    [_validate_record]. *)
Inductive pyval : Type :=
| PNone
| PBool (b : bool)
| PStr (s : string)
| PDatetime (d : datetime)
| PTuple (items : list pyval)
| PReport (r : ScoreReport).

(** Truth value of an object, as [if], [all] and [bool] take it. *)
Definition truthy (v : pyval) : bool :=
  match v with
  | PNone => false
  | PBool b => b
  | PStr s => negb (bool_decide (s = EmptyString))
  | PDatetime _ => true
  | PTuple items => negb (bool_decide (items = []))
  | PReport _ => true          (* a dict with five keys *)
  end.

Definition of_email_result (r : bool * string) : pyval :=
  PTuple [PBool r.1; PStr r.2].

Definition of_date_result (r : bool * option datetime) : pyval :=
  PTuple [PBool r.1; from_option PDatetime PNone r.2].

Abbreviation record := (gmap string string).

(** [{'valid': ..., 'details': ...}] *)
Record verdict : Type := {
  valid : pyval;
  details : pyval
}.

Abbreviation verdicts := (gmap string verdict).

Module DataValidator.

(** [self.validation_rules]; [validate_password] is called with its
    default [min_length], [validate_date] with its default format. *)
Definition validation_rules (now : datetime)
    : gmap string (string → result pyval) :=
  {[ "email" := λ value, Ok (of_email_result (validate_email value));
     "password" := λ value, Ok (PReport (validate_password value default_min_length));
     "date" := λ value, of_date_result <$> validate_date now value;
     "phone" := λ value, Ok (PBool (validate_phone value)) ]}.

(** [result['score']] *)
Definition get_score (v : pyval) : result Q :=
  match v with
  | PReport r => Ok (score r)
  | _ => Raise TypeError
  end.

(** [a, b = v] *)
Definition unpack2 (v : pyval) : result (pyval * pyval) :=
  match v with
  | PTuple [a; b] => Ok (a, b)
  | PTuple _ => Raise ValueError
  | _ => Raise TypeError
  end.

(** The body of the loop of [_validate_record]. *)
Definition validate_field (now : datetime) (field value : string)
    (validated : verdicts) : result verdicts :=
  match validation_rules now !! field with
  | Some validator =>
      if bool_decide (field = "password") then
        result ← validator value;
        score ← get_score result;
        Ok (<[field := {| valid := PBool (Qle_bool 50%Q score);
                          details := result |}]> validated)
      else
        pair ← (if bool_decide (field = "email") then validator value
                else v ← validator value; Ok (PTuple [v; PNone]));
        '(is_valid, details) ← unpack2 pair;
        Ok (<[field := {| valid := is_valid; details := details |}]> validated)
  | None => Ok validated
  end.

Definition _validate_record (now : datetime) (record : record) : result verdicts :=
  map_fold (λ field value acc, validated ← acc; validate_field now field value validated)
           (Ok ∅) record.

(** [self.stats]; the key [pass_rate] is absent until
    [get_statistics] adds it. *)
Record Stats : Type := {
  total : Z;
  passed : Z;
  failed : Z;
  pass_rate : option Q
}.

(** [__init__] *)
Definition init : Stats :=
  {| total := 0; passed := 0; failed := 0; pass_rate := None |}.

(** [all(r['valid'] for r in validated_record.values())] *)
Definition all_valid (validated_record : verdicts) : bool :=
  forallb (λ r, truthy (valid r)) (map_to_list validated_record).*2.

Definition update_statistics (validated_record : verdicts) (stats : Stats) : Stats :=
  let stats := {| total := total stats + 1; passed := passed stats;
                  failed := failed stats; pass_rate := pass_rate stats |} in
  if all_valid validated_record
  then {| total := total stats; passed := passed stats + 1;
          failed := failed stats; pass_rate := pass_rate stats |}
  else {| total := total stats; passed := passed stats;
          failed := failed stats + 1; pass_rate := pass_rate stats |}.

(** The loop of [process_batch] from the record at index [i] on.
    [clock i] is the reading of [datetime.now()] available while the
    record at index [i] is validated (a record has at most one [date]
    field, so at most one reading is taken for it).  An exception leaves
    the statistics as they are at that point. *)
Fixpoint process_records (clock : nat → datetime) (i : nat) (data : list record)
    (results : list verdicts) (stats : Stats) : result (list verdicts) * Stats :=
  match data with
  | [] => (Ok results, stats)
  | record :: data' =>
      match _validate_record (clock i) record with
      | Ok validated_record =>
          process_records clock (S i) data' (results ++ [validated_record])
                          (update_statistics validated_record stats)
      | Raise e => (Raise e, stats)
      end
  end.

Definition process_batch (clock : nat → datetime) (data : list record) (stats : Stats)
    : result (list verdicts) * Stats :=
  process_records clock 0 data [] stats.

(** [get_statistics] returns [self.stats] itself: the first component
    is the dict returned, the second the state it leaves, and the two
    are the same object.  [pass_rate] is here the exact value of
    [passed / total * 100]; the float that the interpreter stores, that
    value rounded twice, is in [Machine.get_statistics]. *)
Definition get_statistics (stats : Stats) : Stats * Stats :=
  if total stats =? 0 then (stats, stats)
  else
    let stats :=
      {| total := total stats; passed := passed stats; failed := failed stats;
         pass_rate := Some ((inject_Z (passed stats) / inject_Z (total stats)) * 100)%Q |} in
    (stats, stats).

End DataValidator.

(** ** Pattern detection *)

Record PasswordStats : Type := {
  avg_length : Q;
  min_length : Z;
  max_length : Z
}.

Record Patterns : Type := {
  email_domains : gmap string Z;
  password_lengths : list Z;
  date_range : option datetime * option datetime;
  password_stats : option PasswordStats
}.

(** [a / b] on ints, as the exact quotient; the float that the
    interpreter returns, that quotient rounded, is [Machine.true_div]. *)
Definition true_div (a b : Z) : result Q :=
  if b =? 0 then Raise ZeroDivisionError else Ok (inject_Z a / inject_Z b)%Q.

(** [min(l)], [max(l)] *)
Definition py_min (l : list Z) : result Z :=
  match l with
  | [] => Raise ValueError
  | x :: l' => Ok (foldl Z.min x l')
  end.

Definition py_max (l : list Z) : result Z :=
  match l with
  | [] => Raise ValueError
  | x :: l' => Ok (foldl Z.max x l')
  end.

(** [sum(l)] *)
Definition py_sum (l : list Z) : Z := foldl Z.add 0 l.

(** The body of the loop of [detect_data_patterns]. *)
Definition scan_record (record : record) (patterns : Patterns) : result Patterns :=
  (* Count email domains *)
  patterns ←
    match record !! "email" with
    | Some email =>
        if str_in "@" email then
          match split "@" email !! 1%nat with
          | Some domain =>
              Ok {| email_domains :=
                      <[domain := default 0 (email_domains patterns !! domain) + 1]>
                        (email_domains patterns);
                    password_lengths := password_lengths patterns;
                    date_range := date_range patterns;
                    password_stats := password_stats patterns |}
          | None => Raise IndexError
          end
        else Ok patterns
    | None => Ok patterns
    end;
  (* Analyze password lengths *)
  match record !! "password" with
  | Some password =>
      Ok {| email_domains := email_domains patterns;
            password_lengths := password_lengths patterns ++ [len password];
            date_range := date_range patterns;
            password_stats := password_stats patterns |}
  | None => Ok patterns
  end.

(** [None] stands for the empty dict returned for an empty batch. *)
Definition detect_data_patterns (data : list record) : result (option Patterns) :=
  match data with
  | [] => Ok None
  | _ =>
      let patterns :=
        {| email_domains := ∅; password_lengths := [];
           date_range := (None, None); password_stats := None |} in
      patterns ← foldl (λ acc record, patterns ← acc; scan_record record patterns)
                       (Ok patterns) data;
      match password_lengths patterns with
      | [] => Ok (Some patterns)
      | _ =>
          avg ← true_div (py_sum (password_lengths patterns))
                         (Z.of_nat (length (password_lengths patterns)));
          lo ← py_min (password_lengths patterns);
          hi ← py_max (password_lengths patterns);
          Ok (Some {| email_domains := email_domains patterns;
                      password_lengths := password_lengths patterns;
                      date_range := date_range patterns;
                      password_stats :=
                        Some {| avg_length := avg; min_length := lo;
                                max_length := hi |} |})
      end
  end.

(** ** The floats of the interpreter

    A Python [float] is a binary64 number: 53 bits of precision, the
    smallest positive number [2^-1074], the largest finite one
    [2^1024 - 2^971].  Each operation returns the exact result rounded
    to the nearest such number, to the one with an even significand
    when two are equally near. *)

Module Binary64.

(** A finite float is given by its value; a zero stands for both
    signed zeros, which are equal as numbers. *)
Inductive float : Type :=
| Finite (v : Q)
| Infinity (negative : bool)
| NaN.

(** The integer part of the binary logarithm of [n/d]: the quotient of
    a number of [a + 1] bits by one of [b + 1] bits lies strictly
    between [2^(a-b-1)] and [2^(a-b+1)]. *)
Definition ilog2 (n d : positive) : Z :=
  let k := Z.log2 (Zpos n) - Z.log2 (Zpos d) in
  if (if 0 <=? k then 2 ^ k * Zpos d <=? Zpos n
      else Zpos d <=? 2 ^ (- k) * Zpos n)
  then k else k - 1.

(** The integer nearest to [n/d], the even one of the two when [n/d]
    lies half way ([0 < d]). *)
Definition rne (n d : Z) : Z :=
  let q := n / d in
  let r := n mod d in
  if 2 * r <? d then q
  else if d <? 2 * r then q + 1
  else if Z.even q then q else q + 1.

(** [n/d] rounded: a multiple of [2^e], where [e] leaves 53 bits to the
    significand and is not below -1074; [None] when the rounded value
    is beyond the largest finite number. *)
Definition round_pos (n d : positive) : option Q :=
  let e := Z.max (ilog2 n d - 52) (-1074) in
  let v : Q :=
    if 0 <=? e then inject_Z (rne (Zpos n) (Zpos d * 2 ^ e) * 2 ^ e)
    else Qred (rne (Zpos n * 2 ^ (- e)) (Zpos d) # Z.to_pos (2 ^ (- e))) in
  if Qle_bool (inject_Z (2 ^ 1024)) v then None else Some v.

Definition round (x : Q) : float :=
  match Qnum x with
  | Z0 => Finite 0
  | Zpos n =>
      match round_pos n (Qden x) with
      | Some v => Finite v
      | None => Infinity false
      end
  | Zneg n =>
      match round_pos n (Qden x) with
      | Some v => Finite (- v)
      | None => Infinity true
      end
  end.

(** [x * y] on floats *)
Definition mul (x y : float) : float :=
  match x, y with
  | Finite a, Finite b => round (a * b)
  | Finite a, Infinity s | Infinity s, Finite a =>
      if Qnum a =? 0 then NaN else Infinity (xorb s (Qnum a <? 0))
  | Infinity s, Infinity s' => Infinity (xorb s s')
  | _, _ => NaN
  end.

End Binary64.

(** ** The two quotients as the interpreter computes them

    [DataValidator] and [detect_data_patterns] once more, with the
    arithmetic of the interpreter where a float is computed: the
    statistics hold a float under [pass_rate], and the average length
    is the quotient of two ints rounded. *)

Module Machine.

(** [a / b] on ints: the quotient of the two integers rounded once;
    [OverflowError] when it rounds beyond the largest float. *)
Definition true_div (a b : Z) : result Q :=
  if b =? 0 then Raise ZeroDivisionError
  else
    match Binary64.round (inject_Z a / inject_Z b) with
    | Binary64.Finite q => Ok q
    | _ => Raise OverflowError
    end.

(** [self.stats] *)
Record Stats : Type := {
  total : Z;
  passed : Z;
  failed : Z;
  pass_rate : option Binary64.float
}.

(** [__init__] *)
Definition init : Stats :=
  {| total := 0; passed := 0; failed := 0; pass_rate := None |}.

Definition update_statistics (validated_record : verdicts) (stats : Stats) : Stats :=
  let stats := {| total := total stats + 1; passed := passed stats;
                  failed := failed stats; pass_rate := pass_rate stats |} in
  if DataValidator.all_valid validated_record
  then {| total := total stats; passed := passed stats + 1;
          failed := failed stats; pass_rate := pass_rate stats |}
  else {| total := total stats; passed := passed stats;
          failed := failed stats + 1; pass_rate := pass_rate stats |}.

Fixpoint process_records (clock : nat → datetime) (i : nat) (data : list record)
    (results : list verdicts) (stats : Stats) : result (list verdicts) * Stats :=
  match data with
  | [] => (Ok results, stats)
  | record :: data' =>
      match DataValidator._validate_record (clock i) record with
      | Ok validated_record =>
          process_records clock (S i) data' (results ++ [validated_record])
                          (update_statistics validated_record stats)
      | Raise e => (Raise e, stats)
      end
  end.

Definition process_batch (clock : nat → datetime) (data : list record) (stats : Stats)
    : result (list verdicts) * Stats :=
  process_records clock 0 data [] stats.

(** [(self.stats['passed'] / self.stats['total']) * 100]: the quotient
    of the two ints is rounded, [100] becomes the float [100.0], and
    the product is rounded again.  The first component is what the
    call returns, [self.stats] itself unless the division raises. *)
Definition get_statistics (stats : Stats) : result Stats * Stats :=
  if total stats =? 0 then (Ok stats, stats)
  else
    match true_div (passed stats) (total stats) with
    | Ok q =>
        let stats :=
          {| total := total stats; passed := passed stats; failed := failed stats;
             pass_rate := Some (Binary64.mul (Binary64.Finite q)
                                             (Binary64.Finite 100)) |} in
        (Ok stats, stats)
    | Raise e => (Raise e, stats)
    end.

(** The average length is a float that the division returned, hence
    finite: [avg_length] holds its value. *)
Definition detect_data_patterns (data : list record) : result (option Patterns) :=
  match data with
  | [] => Ok None
  | _ =>
      let patterns :=
        {| email_domains := ∅; password_lengths := [];
           date_range := (None, None); password_stats := None |} in
      patterns ← foldl (λ acc record, patterns ← acc; scan_record record patterns)
                       (Ok patterns) data;
      match password_lengths patterns with
      | [] => Ok (Some patterns)
      | _ =>
          avg ← true_div (py_sum (password_lengths patterns))
                         (Z.of_nat (length (password_lengths patterns)));
          lo ← py_min (password_lengths patterns);
          hi ← py_max (password_lengths patterns);
          Ok (Some {| email_domains := email_domains patterns;
                      password_lengths := password_lengths patterns;
                      date_range := date_range patterns;
                      password_stats :=
                        Some {| avg_length := avg; min_length := lo;
                                max_length := hi |} |})
      end
  end.

(** The statistics a [DataValidator] can hold: those of a fresh
    instance, and those left by a call of [process_batch] or of
    [get_statistics]. *)
Inductive reachable : Stats → Prop :=
| fresh : reachable init
| after_process_batch clock data stats out stats' :
    reachable stats →
    process_batch clock data stats = (out, stats') →
    reachable stats'
| after_get_statistics stats out stats' :
    reachable stats →
    get_statistics stats = (out, stats') →
    reachable stats'.

End Machine.

(** ** Notions used by the statements *)

(** *** The shape of an address, in the words of the specification

    [local@domain.tld] with a non-empty [local] of alphanumerics and
    [._%+-], a non-empty [domain] of alphanumerics, hyphens and dots and
    a [tld] of at least two letters; [shaped tail s] is that shape
    followed by [tail]. *)
Definition shaped (tail s : list ascii) : Prop :=
  ∃ local domain tld,
    s = local ++ "@"%char :: domain ++ "."%char :: tld ++ tail
    ∧ (1 ≤ length local)%nat ∧ forallb email_local_char local = true
    ∧ (1 ≤ length domain)%nat ∧ forallb email_domain_char domain = true
    ∧ (2 ≤ length tld)%nat ∧ forallb is_alpha tld = true.

Definition email_shape (email : string) : Prop := shaped [] (chars email).

Definition newline : ascii := "010"%char.

(** The shape, or the shape followed by one newline. *)
Definition email_shape_nl (email : string) : Prop :=
  email_shape email ∨ ∃ s, email = s +:+ String newline EmptyString ∧ email_shape s.

(** [p] occurs in [s] as a substring. *)
Definition is_substring (p s : string) : Prop :=
  ∃ a b, chars s = a ++ chars p ++ b.

Definition suspicious (email : string) : Prop :=
  ∃ p, p ∈ suspicious_patterns ∧ is_substring p (lower email).

Definition has_common_pattern (password : string) : Prop :=
  ∃ p, p ∈ common_patterns ∧ is_substring p (lower password).

(** *** The verdict of one field

    What the loop body of [_validate_record] stores under [field], when
    it stores anything. *)
Definition field_verdict (now : datetime) (field value : string) : option verdict :=
  if bool_decide (field = "email") then
    Some {| valid := PBool (validate_email value).1;
            details := PStr (validate_email value).2 |}
  else if bool_decide (field = "password") then
    let r := validate_password value default_min_length in
    Some {| valid := PBool (Qle_bool 50%Q (score r)); details := PReport r |}
  else if bool_decide (field = "date") then
    match validate_date now value with
    | Ok r => Some {| valid := of_date_result r; details := PNone |}
    | Raise _ => None
    end
  else if bool_decide (field = "phone") then
    Some {| valid := PBool (validate_phone value); details := PNone |}
  else None.

Definition known_fields : list string := ["email"; "password"; "date"; "phone"].

(** Every verdict of the record is true as a condition. *)
Definition record_passed (validated : verdicts) : Prop :=
  map_Forall (λ _ r, truthy (valid r) = true) validated.

(** Every verdict of the record has the boolean [True] under [valid]. *)
Definition all_verdicts_true (validated : verdicts) : Prop :=
  map_Forall (λ _ r, valid r = PBool true) validated.

(** *** The states of a processor

    The statistics a [DataValidator] can hold: those of a fresh
    instance, and those left by a call of [process_batch] or of
    [get_statistics]. *)
Inductive reachable : DataValidator.Stats → Prop :=
| reachable_init : reachable DataValidator.init
| reachable_process_batch clock data stats out stats' :
    reachable stats →
    DataValidator.process_batch clock data stats = (out, stats') →
    reachable stats'
| reachable_get_statistics stats out stats' :
    reachable stats →
    DataValidator.get_statistics stats = (out, stats') →
    reachable stats'.

(** *** Domains of addresses *)

(** What follows the first [@], if there is one. *)
Fixpoint after_first_at (s : list ascii) : option (list ascii) :=
  match s with
  | [] => None
  | c :: s' => if bool_decide (c = "@"%char) then Some s' else after_first_at s'
  end.

(** The characters in front of the first [@], all of them if there is
    none. *)
Fixpoint up_to_at (s : list ascii) : list ascii :=
  match s with
  | [] => []
  | c :: s' => if bool_decide (c = "@"%char) then [] else c :: up_to_at s'
  end.

(** What lies between the first [@] and the next one (or the end). *)
Definition between_ats (s : list ascii) : option (list ascii) :=
  up_to_at <$> after_first_at s.

(** The histogram keys of a batch, one per record with an [email]
    field from which [domain] extracts something, in input order. *)
Definition domain_keys (domain : list ascii → option (list ascii))
    (data : list record) : list string :=
  omap (λ r : record, email ← r !! "email"; of_chars <$> domain (chars email)) data.

(** [h] counts the occurrences of each key of [keys]. *)
Definition counts (keys : list string) (h : gmap string Z) : Prop :=
  ∀ d, h !! d =
       let n := length (filter (λ k, k = d) keys) in
       if (n =? 0)%nat then None else Some (Z.of_nat n).

(** The lengths of the [password] fields of a batch, in input order. *)
Definition lengths_of (data : list record) : list Z :=
  omap (λ r : record, len <$> r !! "password") data.

(** *** Fixed inputs of the examples *)

Definition newline_email : string := "a@b.cd" +:+ String newline EmptyString.

Definition a_moment : datetime :=
  {| year := 2024; month := 6; day := 1;
     hour := 12; minute := 0; second := 0; microsecond := 0 |}.

Definition b2q (b : bool) : Q := if b then 1%Q else 0%Q.

#[global] Instance record_passed_dec (validated : verdicts) :
  Decision (record_passed validated).
Proof. unfold record_passed. apply _. Defined.

(** The verdicts [process_records] appends for [data], whose first
    record has index [i]. *)
Definition verdicts_of (clock : nat → datetime) (i : nat) (data : list record)
    : list verdicts :=
  imap (λ j r, map_imap (field_verdict (clock (i + j)%nat)) r) data.

(** The value of a field validator has the type its definition
    declares. *)
Definition has_declared_type (field : string) (v : pyval) : Prop :=
  (field = "email" ∧ ∃ b msg, v = PTuple [PBool b; PStr msg])
  ∨ (field = "password" ∧ ∃ r, v = PReport r)
  ∨ (field = "date"
     ∧ (v = PTuple [PBool false; PNone] ∨ ∃ d, v = PTuple [PBool true; PDatetime d]))
  ∨ (field = "phone" ∧ ∃ b, v = PBool b).

(** The statistics after the verdicts [vs] have been tallied, in
    order. *)
Definition tally (vs : list verdicts) (stats : DataValidator.Stats)
    : DataValidator.Stats :=
  foldl (λ st v, DataValidator.update_statistics v st) stats vs.

Definition count_passed (vs : list verdicts) : Z :=
  Z.of_nat (length (filter record_passed vs)).

Definition count_failed (vs : list verdicts) : Z :=
  Z.of_nat (length (filter (λ v, ¬ record_passed v) vs)).

(** The record whose only field is a date that does not parse. *)
Definition not_a_date_record : record := {[ "date" := "not-a-date" ]}.

(** A one-record batch for the examples. *)
Definition sample_batch : list record :=
  [ {[ "email" := "user1@example.com"; "phone" := "123" ]} ].

(** The histogram key a record contributes, as the code extracts it. *)
Definition domain_key (record : record) : option string :=
  email ← record !! "email"; of_chars <$> between_ats (chars email).

(** What the loop body of [detect_data_patterns] leaves. *)
Definition scanned (record : record) (patterns : Patterns) : Patterns :=
  {| email_domains :=
       match domain_key record with
       | Some domain =>
           <[domain := default 0 (email_domains patterns !! domain) + 1]>
             (email_domains patterns)
       | None => email_domains patterns
       end;
     password_lengths :=
       password_lengths patterns ++ option_list (len <$> record !! "password");
     date_range := date_range patterns;
     password_stats := password_stats patterns |}.

(** The batches of the examples of [detect_data_patterns]. *)
Definition two_passwords : list record :=
  [ {[ "password" := "abc" ]}; {[ "password" := "de" ]} ].

Definition two_ats : list record := [ {[ "email" := "a@b@c" ]} ].

(** *** Notions used by the further properties *)

(** The number of decimal digits of a string. *)
Definition count_digits (s : string) : Z :=
  Z.of_nat (length (filter (λ c, is_digit c = true) (chars s))).

(** The criteria of the password scorer: the length check, the four
    class checks and the presence of a common pattern. *)
Definition long_enough (password : string) (min_length : Z) : bool :=
  len password >=? min_length.

Definition has_common (password : string) : bool :=
  existsb (λ pattern, str_in pattern (lower password)) common_patterns.

(** The number of [@] of a string. *)
Definition count_ats (s : string) : nat :=
  length (filter (λ c, c = "@"%char) (chars s)).

(** The decimal digit of a number from 0 to 9. *)
Definition digit_char (n : Z) : ascii := ascii_of_N (Z.to_N (48 + n)).

Definition two_digits (n : Z) : list ascii :=
  [digit_char (n / 10); digit_char (n mod 10)].

Definition four_digits (n : Z) : list ascii :=
  [digit_char (n / 1000); digit_char (n / 100 mod 10);
   digit_char (n / 10 mod 10); digit_char (n mod 10)].

(** The decimal form of a month or of a day: in two digits, or, when
    [short] is set, without a leading zero. *)
Definition digits_of (short : bool) (n : Z) : list ascii :=
  if short && (n <? 10) then [digit_char n] else two_digits n.

(** The text of a date: the year in four digits, the month and the day
    as [digits_of] writes them, with hyphens between. *)
Definition date_text (short_month short_day : bool) (y m d : Z) : string :=
  of_chars (four_digits y ++ "-"%char :: digits_of short_month m
            ++ "-"%char :: digits_of short_day d).

(** The date [y-m-d] at midnight. *)
Definition midnight (y m d : Z) : datetime :=
  {| year := y; month := m; day := d;
     hour := 0; minute := 0; second := 0; microsecond := 0 |}.

(** What a directive consumes: [(v, rest)] among the matches of [p]
    on [s] means that [s] is [rest] behind [n] characters, [lo ≤ n ≤ hi]. *)
Definition consumes {A : Type} (p : parser A) (lo hi : nat) : Prop :=
  ∀ s v rest, (v, rest) ∈ p s →
    ∃ pre, s = pre ++ rest ∧ (lo ≤ length pre ≤ hi)%nat.



(** The statistics after the verdicts [vs] have been tallied, with a
    float under [pass_rate]. *)
Definition machine_tally (vs : list verdicts) (stats : Machine.Stats)
    : Machine.Stats :=
  foldl (λ st v, Machine.update_statistics v st) stats vs.

(** Statistics with 7 records passed out of 25, and with 1 out of 3. *)
Definition seven_of_25 : Machine.Stats :=
  {| Machine.total := 25; Machine.passed := 7; Machine.failed := 18;
     Machine.pass_rate := None |}.

Definition one_of_3 : Machine.Stats :=
  {| Machine.total := 3; Machine.passed := 1; Machine.failed := 2;
     Machine.pass_rate := None |}.

(** Passwords of 1, 1 and 2 characters. *)
Definition three_passwords : list record :=
  [ {[ "password" := "a" ]}; {[ "password" := "b" ]}; {[ "password" := "cd" ]} ].

(** The length of a string is below [2^63], the bound of [len]. *)
Definition ssize_max : Z := 2 ^ 63 - 1.

(** *** The arithmetic of the processor

    The primitive floats of the proof assistant are the binary64
    numbers of the processor; [Binary64.round] is compared with their
    division and product on sample operands. *)

(** The value of a primitive float. *)
Definition value_of (f : PrimFloat.float) : Binary64.float :=
  match FloatOps.Prim2SF f with
  | SpecFloat.S754_zero _ => Binary64.Finite 0
  | SpecFloat.S754_finite s m e =>
      let v := if 0 <=? e then inject_Z (Zpos m * 2 ^ e)
               else Qred (Zpos m # Z.to_pos (2 ^ (- e))) in
      Binary64.Finite (if s then - v else v)
  | SpecFloat.S754_infinity s => Binary64.Infinity s
  | SpecFloat.S754_nan => Binary64.NaN
  end.

Definition of_int (n : Z) : PrimFloat.float :=
  if n <? 0 then PrimFloat.opp (PrimFloat.of_uint63 (Uint63.of_Z (- n)))
  else PrimFloat.of_uint63 (Uint63.of_Z n).

Definition agree (a b : Z) : Prop :=
  value_of (PrimFloat.div (of_int a) (of_int b))
  = Binary64.round (inject_Z a / inject_Z b).

(** [two_passwords] in the other order. *)
Definition two_passwords_swapped : list record :=
  [ {[ "password" := "de" ]}; {[ "password" := "abc" ]} ].

(** The fields that decide the fate of a record are acceptable: the
    email, the password and the phone, each if present. *)
Definition acceptable (record : record) : Prop :=
  (∀ email, record !! "email" = Some email → (validate_email email).1 = true)
  ∧ (∀ password, record !! "password" = Some password →
       (50 <= score (validate_password password default_min_length))%Q)
  ∧ (∀ phone, record !! "phone" = Some phone → validate_phone phone = true).

(** * Properties *)

(** ** Strings *)

Lemma chars_of_chars (l : list ascii) : chars (of_chars l) = l.
Proof. apply list_ascii_of_string_of_list_ascii. Qed.

Lemma of_chars_chars (s : string) : of_chars (chars s) = s.
Proof. apply string_of_list_ascii_of_string. Qed.

Lemma chars_app (s t : string) : chars (s +:+ t) = chars s ++ chars t.
Proof. induction s as [|c s IH]; simpl; [done | by rewrite IH]. Qed.

Lemma chars_inj (s t : string) : chars s = chars t → s = t.
Proof. intros H. by rewrite <- (of_chars_chars s), <- (of_chars_chars t), H. Qed.

Lemma starts_with_spec (p s : list ascii) :
  starts_with p s = true ↔ ∃ b, s = p ++ b.
Proof.
  revert s. induction p as [|a p IH]; intros s; simpl.
  - split; [by exists s | done].
  - destruct s as [|c s].
    + split; [done | by intros [b Hb]].
    + rewrite andb_true_iff, bool_decide_eq_true, IH. split.
      * intros [-> [b ->]]. by exists b.
      * intros [b Hb]. injection Hb as -> ->. split; [done | by exists b].
Qed.

Lemma contains_spec (p s : list ascii) :
  contains p s = true ↔ ∃ a b, s = a ++ p ++ b.
Proof.
  induction s as [|c s IH]; simpl.
  - rewrite orb_false_r, starts_with_spec. split.
    + intros [b Hb]. by exists [], b.
    + intros (a & b & Hs). symmetry in Hs.
      apply app_eq_nil in Hs as [-> Hs]. exists b. by rewrite Hs.
  - rewrite orb_true_iff, starts_with_spec, IH. split.
    + intros [[b Hb] | (a & b & ->)]; [by exists [], b | by exists (c :: a), b].
    + intros (a & b & Hs). destruct a as [|c' a]; simpl in Hs.
      * left. by exists b.
      * right. injection Hs as -> ->. by exists a, b.
Qed.

(** [p in s] holds exactly of the substrings of [s]. *)
Lemma str_in_spec (p s : string) : str_in p s = true ↔ is_substring p s.
Proof. apply contains_spec. Qed.

Lemma existsb_elem_of {A : Type} (f : A → bool) (l : list A) :
  existsb f l = true ↔ ∃ x, x ∈ l ∧ f x = true.
Proof.
  rewrite existsb_exists. split; intros (x & Hx & Hf); exists x;
    (split; [by apply list_elem_of_In | done]).
Qed.

(** ** Matching *)

Lemma rep_spec (p : ascii → bool) (k : nat → list ascii → bool) (s : list ascii) :
  ∀ n pos,
    rep p n pos s k = true ↔
    ∃ a b, s = a ++ b ∧ forallb p a = true ∧ (n ≤ length a)%nat
           ∧ k (pos + length a)%nat b = true.
Proof.
  induction s as [|c s IH]; intros n pos; simpl.
  - rewrite andb_true_iff, Nat.eqb_eq. split.
    + intros [-> Hk]. exists [], []. simpl. rewrite Nat.add_0_r.
      split_and!; done.
    + intros (a & b & Hs & _ & Hn & Hk).
      symmetry in Hs. apply app_eq_nil in Hs as [-> ->]. simpl in *.
      rewrite Nat.add_0_r in Hk. split; [lia | done].
  - rewrite orb_true_iff, !andb_true_iff, Nat.eqb_eq, IH. split.
    + intros [[Hc (a & b & -> & Ha & Hn & Hk)] | [-> Hk]].
      * exists (c :: a), b. simpl. rewrite Hc, Ha.
        split_and!; [done | done | lia |].
        rewrite <- Hk. f_equal. lia.
      * exists [], (c :: s). simpl. rewrite Nat.add_0_r. split_and!; done.
    + intros (a & b & Hs & Ha & Hn & Hk). destruct a as [|c' a].
      * right. simpl in *. subst b. rewrite Nat.add_0_r in Hk. split; [lia | done].
      * left. simpl in *. injection Hs as <- ->.
        apply andb_true_iff in Ha as [Hc Ha]. split; [done |].
        exists a, b. split_and!; [done | done | lia |].
        rewrite <- Hk. f_equal. lia.
Qed.

(** A search for one character class finds a character of the class. *)
Lemma search_from_cls (p : ascii → bool) (s : list ascii) (pos : nat) :
  search_from (Cls p) pos s = existsb p s.
Proof.
  revert pos. induction s as [|c s IH]; intros pos; simpl; [done |].
  by rewrite IH, andb_true_r.
Qed.

Lemma re_search_cls (p : ascii → bool) (s : string) :
  re_search (Cls p) s = existsb p (chars s).
Proof. apply search_from_cls. Qed.

Lemma at_end_spec (tail : list ascii) :
  at_end tail = true ↔ tail = [] ∨ tail = [newline].
Proof.
  destruct tail as [|c [|c' tail]]; simpl.
  - split; [by left | done].
  - rewrite bool_decide_eq_true. split; [intros ->; by right | by intros [|[= ->]]].
  - split; [done | by intros [|]].
Qed.

(** ** The email validator *)

Lemma email_pattern_spec (email : string) :
  re_match email_pattern email = true ↔
  ∃ tail, at_end tail = true ∧ shaped tail (chars email).
Proof.
  unfold re_match, email_pattern, shaped. simpl. split.
  - intros H. apply rep_spec in H as (local & s1 & Hs & Hl & Hnl & H).
    destruct s1 as [|c1 s1]; [done |].
    apply andb_true_iff in H as [Hc1 H]. apply bool_decide_eq_true in Hc1 as ->.
    apply rep_spec in H as (domain & s2 & -> & Hd & Hnd & H).
    destruct s2 as [|c2 s2]; [done |].
    apply andb_true_iff in H as [Hc2 H]. apply bool_decide_eq_true in Hc2 as ->.
    apply rep_spec in H as (tld & tail & -> & Ht & Hnt & H).
    apply andb_true_iff in H as [H _].
    exists tail. split; [done |]. exists local, domain, tld. split_and!; done.
  - intros (tail & Hend & local & domain & tld & Hs & Hnl & Hl & Hnd & Hd & Hnt & Ht).
    apply rep_spec. exists local, ("@"%char :: domain ++ "."%char :: tld ++ tail).
    split_and!; [done | done | done |].
    rewrite bool_decide_eq_true_2 by done. simpl.
    apply rep_spec. exists domain, ("."%char :: tld ++ tail).
    split_and!; [done | done | done |].
    rewrite bool_decide_eq_true_2 by done. simpl.
    apply rep_spec. exists tld, tail.
    split_and!; [done | done | done |].
    by rewrite Hend.
Qed.

Lemma shaped_newline (s : list ascii) :
  shaped [newline] s ↔ ∃ s', s = s' ++ [newline] ∧ shaped [] s'.
Proof.
  split.
  - intros (local & domain & tld & -> & H).
    exists (local ++ "@"%char :: domain ++ "."%char :: tld). split.
    + by rewrite <- !app_assoc, <- !app_comm_cons, <- !app_assoc.
    + exists local, domain, tld. by rewrite app_nil_r.
  - intros (s' & -> & local & domain & tld & -> & H).
    exists local, domain, tld. split; [| done].
    by rewrite app_nil_r, <- !app_assoc, <- !app_comm_cons, <- !app_assoc.
Qed.

Lemma email_match_shape (email : string) :
  re_match email_pattern email = true ↔ email_shape_nl email.
Proof.
  rewrite email_pattern_spec. unfold email_shape_nl, email_shape. split.
  - intros (tail & Hend & H). apply at_end_spec in Hend as [-> | ->]; [by left |].
    right. apply shaped_newline in H as (s' & Hs & H).
    exists (of_chars s'). rewrite chars_of_chars. split; [| done].
    apply chars_inj. by rewrite chars_app, chars_of_chars.
  - intros [H | (s & -> & H)].
    + exists []. done.
    + exists [newline]. split; [done |].
      apply shaped_newline. exists (chars s). by rewrite chars_app.
Qed.

Lemma suspicious_spec (email : string) :
  existsb (λ pattern, str_in pattern (lower email)) suspicious_patterns = true
  ↔ suspicious email.
Proof.
  rewrite existsb_elem_of. unfold suspicious.
  split; intros (p & Hp & H); exists p; (split; [done | by apply str_in_spec]).
Qed.

(** The last character of a string of the plain shape is a letter. *)
Lemma shaped_last_alpha (s : list ascii) :
  shaped [] s → ∃ c, last s = Some c ∧ is_alpha c = true.
Proof.
  intros (local & domain & tld & -> & _ & _ & _ & _ & Hn & Ht).
  destruct tld as [|t tld _] using rev_ind; [simpl in Hn; lia |].
  rewrite forallb_app in Ht. apply andb_true_iff in Ht as [_ Ht].
  simpl in Ht. rewrite andb_true_r in Ht. exists t. split; [| done].
  rewrite app_nil_r.
  replace (local ++ "@"%char :: domain ++ "."%char :: tld ++ [t])
    with ((local ++ "@"%char :: domain ++ "."%char :: tld) ++ [t]).
  - apply last_snoc.
  - by rewrite <- !app_assoc, <- !app_comm_cons, <- !app_assoc.
Qed.

(** The answers of [validate_email], case by case.  It answers
    "Invalid email format" exactly for the strings that neither have
    the shape
    [local@domain.tld] (non-empty [local] of alphanumerics and [._%+-],
    non-empty [domain] of alphanumerics, hyphens and dots, [tld] of two
    or more letters) nor are such a string followed by one newline; the
    other strings get "Email appears suspicious" when their lowercased
    form contains one of [spam], [fake], [test], [temp], and
    "Valid email" otherwise. *)
Theorem validate_email_cases (email : string) :
  ((validate_email email = (false, "Invalid email format")
      ↔ ¬ email_shape_nl email)
   ∧ (validate_email email = (false, "Email appears suspicious")
      ↔ email_shape_nl email ∧ suspicious email)
   ∧ (validate_email email = (true, "Valid email")
      ↔ email_shape_nl email ∧ ¬ suspicious email))
  ∧ validate_email "latest@x.com" = (false, "Email appears suspicious").
Proof.
  split; [| vm_compute; reflexivity].
  unfold validate_email. rewrite <- email_match_shape, <- suspicious_spec.
  generalize (existsb (λ pattern, str_in pattern (lower email)) suspicious_patterns).
  intros sus. destruct (re_match email_pattern email), sus; simpl;
    split_and!; split; first [done | by intros [? ?] | by intros []].
Qed.

Example validate_email_user1 :
  validate_email "user1@example.com" = (true, "Valid email").
Proof. vm_compute. reflexivity. Qed.

Example validate_email_invalid :
  validate_email "invalid-email" = (false, "Invalid email format").
Proof. vm_compute. reflexivity. Qed.

(** C6, at the input where the code departs from it.  The pattern is
    anchored at both ends, but its [$] also matches in front of a
    newline that ends the string: an address of the shape followed by
    a newline does not have the shape, and it is answered
    "Valid email", not "Invalid email format". *)
Theorem validate_email_trailing_newline :
  ¬ email_shape newline_email
  ∧ validate_email newline_email = (true, "Valid email")
  ∧ ¬ (validate_email newline_email = (false, "Invalid email format")
       ↔ ¬ email_shape newline_email).
Proof.
  assert (Hshape : ¬ email_shape newline_email).
  { intros H. apply shaped_last_alpha in H as (c & Hc & Ha).
    vm_compute in Hc. injection Hc as <-. vm_compute in Ha. done. }
  assert (Hv : validate_email newline_email = (true, "Valid email"))
    by (vm_compute; reflexivity).
  split_and!; [done | done |].
  rewrite Hv. intros [_ H]. by specialize (H Hshape).
Qed.

(** ** The password scorer *)

Lemma common_pattern_spec (password : string) :
  existsb (λ pattern, str_in pattern (lower password)) common_patterns = true
  ↔ has_common_pattern password.
Proof.
  rewrite existsb_elem_of. unfold has_common_pattern.
  split; intros (p & Hp & H); exists p; (split; [done | by apply str_in_spec]).
Qed.

(** C4.  The score is 25 for the length, 18.75 for each of the four
    character classes present, minus 30 for a common pattern in the
    lowercased password, with no clamping; [checks_passed] counts the
    classes present and [total_checks] is 4. *)
Theorem validate_password_score (password : string) (min_length : Z) :
  let r := validate_password password min_length in
  let upper := existsb is_upper (chars password) in
  let lower_ := existsb is_lower (chars password) in
  let digit := existsb is_digit (chars password) in
  let special := existsb is_special (chars password) in
  let common :=
    existsb (λ pattern, str_in pattern (lower password)) common_patterns in
  (score r == 25 * b2q (bool_decide (min_length ≤ len password))
              + 18.75 * inject_Z (checks_passed r)
              - 30 * b2q common)%Q
  ∧ (common = true ↔ has_common_pattern password)
  ∧ checks_passed r = Z.b2z upper + Z.b2z lower_ + Z.b2z digit + Z.b2z special
  ∧ total_checks r = 4
  ∧ default_min_length = 8
  ∧ (score (validate_password "123456" default_min_length) < 0)%Q.
Proof.
  intros r upper lower_ digit special common.
  split_and!; [| apply common_pattern_spec | | | reflexivity | reflexivity];
    subst r upper lower_ digit special common;
    unfold validate_password, password_checks; rewrite !re_search_cls;
    (assert (Hlen : (len password >=? min_length)
                     = bool_decide (min_length ≤ len password))
       by (rewrite Z.geb_leb; apply eq_iff_eq_true;
           by rewrite Z.leb_le, bool_decide_eq_true));
    rewrite Hlen;
    generalize (existsb (λ pattern, str_in pattern (lower password)) common_patterns);
    intros common;
    destruct (bool_decide (min_length ≤ len password)),
      (existsb is_upper (chars password)), (existsb is_lower (chars password)),
      (existsb is_digit (chars password)), (existsb is_special (chars password)),
      common; done.
Qed.

Lemma rating_classify (password : string) (min_length : Z) :
  rating (validate_password password min_length)
  = classify (score (validate_password password min_length)).
Proof.
  unfold validate_password.
  repeat match goal with
         | |- context [let '(_, _) := ?e in _] => destruct e
         end.
  reflexivity.
Qed.

Lemma Qle_bool_false (a b : Q) : Qle_bool a b = false ↔ (b < a)%Q.
Proof.
  rewrite <- not_true_iff_false, Qle_bool_iff. split.
  - apply Qnot_le_lt.
  - apply Qlt_not_le.
Qed.

Lemma classify_spec (score : Q) :
  ((90 <= score)%Q → classify score = "Excellent")
  ∧ ((70 <= score)%Q → (score < 90)%Q → classify score = "Good")
  ∧ ((50 <= score)%Q → (score < 70)%Q → classify score = "Fair")
  ∧ ((score < 50)%Q → classify score = "Weak").
Proof.
  unfold classify. split_and!.
  - intros H90. by rewrite (proj2 (Qle_bool_iff _ _) H90).
  - intros H70 H90.
    by rewrite (proj2 (Qle_bool_false _ _) H90), (proj2 (Qle_bool_iff _ _) H70).
  - intros H50 H70.
    assert (H90 : (score < 90)%Q) by (eapply Qlt_trans; [exact H70 | done]).
    by rewrite (proj2 (Qle_bool_false _ _) H90), (proj2 (Qle_bool_false _ _) H70),
      (proj2 (Qle_bool_iff _ _) H50).
  - intros H50.
    assert (H70 : (score < 70)%Q) by (eapply Qlt_trans; [exact H50 | done]).
    assert (H90 : (score < 90)%Q) by (eapply Qlt_trans; [exact H50 | done]).
    by rewrite (proj2 (Qle_bool_false _ _) H90), (proj2 (Qle_bool_false _ _) H70),
      (proj2 (Qle_bool_false _ _) H50).
Qed.

(** ** The date validator *)

Lemma strptime_raises (date_string : string) (e : exn) :
  strptime date_string = Raise e → e = ValueError.
Proof.
  unfold strptime. destruct (match_ymd _) as [|[[[y m] d] rest] ?]; [congruence |].
  case_bool_decide; [congruence |]. destruct (date_in_range y m d); congruence.
Qed.

(** [validate_date] returns, whatever the string and the clock. *)
Lemma validate_date_returns (now : datetime) (date_str : string) :
  ∃ r, validate_date now date_str = Ok r
       ∧ (r = (false, None)
          ∨ ∃ d, strptime date_str = Ok d ∧ datetime_gt d now = false
                 ∧ r = (true, Some d)).
Proof.
  unfold validate_date. destruct (strptime date_str) as [d | e] eqn:Hp; simpl.
  - destruct (datetime_gt d now) eqn:Hgt; simpl; eauto 10.
  - apply strptime_raises in Hp as ->. simpl. eauto.
Qed.

(** ** The record validator *)

Import DataValidator.

Lemma validate_field_spec (now : datetime) (field value : string)
    (validated : verdicts) :
  validate_field now field value validated
  = Ok (match field_verdict now field value with
        | Some v => <[field := v]> validated
        | None => validated
        end).
Proof.
  unfold validate_field, field_verdict, validation_rules.
  destruct (decide (field = "email")) as [-> | Hemail].
  { rewrite lookup_insert_eq. simpl. reflexivity. }
  rewrite lookup_insert_ne, (bool_decide_eq_false_2 (field = "email")) by done.
  destruct (decide (field = "password")) as [-> | Hpassword].
  { rewrite lookup_insert_eq. simpl. reflexivity. }
  rewrite lookup_insert_ne, (bool_decide_eq_false_2 (field = "password")) by done.
  destruct (decide (field = "date")) as [-> | Hdate].
  { rewrite lookup_insert_eq. simpl.
    destruct (validate_date_returns now value) as (r & -> & _). reflexivity. }
  rewrite lookup_insert_ne, (bool_decide_eq_false_2 (field = "date")) by done.
  destruct (decide (field = "phone")) as [-> | Hphone].
  { rewrite lookup_singleton_eq. simpl. reflexivity. }
  by rewrite lookup_singleton_ne, (bool_decide_eq_false_2 (field = "phone")) by done.
Qed.

Lemma validate_record_spec (now : datetime) (record : record) :
  _validate_record now record = Ok (map_imap (field_verdict now) record).
Proof.
  unfold _validate_record.
  apply (map_fold_weak_ind
           (λ acc m, acc = Ok (map_imap (field_verdict now) m))).
  - by rewrite map_imap_empty.
  - intros field value m acc Hm ->. simpl. rewrite validate_field_spec.
    f_equal. destruct (field_verdict now field value) as [v|] eqn:Hv.
    + by rewrite (map_imap_insert_Some _ _ _ _ v).
    + by rewrite map_imap_insert_None, delete_id
        by (done || by rewrite map_lookup_imap, Hm).
Qed.

(** [_validate_record] returns, and the verdict it holds for a field
    is the verdict of that field's value. *)
Lemma validate_record_lookup (now : datetime) (record : record) :
  ∃ validated,
    _validate_record now record = Ok validated
    ∧ ∀ field, validated !! field = record !! field ≫= field_verdict now field.
Proof.
  exists (map_imap (field_verdict now) record).
  split; [apply validate_record_spec |]. intros field. apply map_lookup_imap.
Qed.

(** C5.  The rating follows the score by the thresholds 90, 70 and 50,
    taken from the top, and the verdict [_validate_record] stores for
    a [password] field is valid exactly when the score is at least 50,
    with the whole report as its detail. *)
Theorem password_rating_and_verdict (now : datetime) (record : record)
    (password : string) (min_length : Z) :
  let r := validate_password password min_length in
  ((90 <= score r)%Q → rating r = "Excellent")
  ∧ ((70 <= score r)%Q → (score r < 90)%Q → rating r = "Good")
  ∧ ((50 <= score r)%Q → (score r < 70)%Q → rating r = "Fair")
  ∧ ((score r < 50)%Q → rating r = "Weak")
  ∧ ∃ validated,
      _validate_record now record = Ok validated
      ∧ validated !! "password"
        = (λ value,
             let report := validate_password value default_min_length in
             {| valid := PBool (Qle_bool 50 (score report));
                details := PReport report |}) <$> record !! "password"
      ∧ ∀ report, Qle_bool 50 (score report) = true ↔ (50 <= score report)%Q.
Proof.
  simpl. rewrite rating_classify.
  destruct (classify_spec (score (validate_password password min_length)))
    as (H1 & H2 & H3 & H4).
  split_and!; try done.
  destruct (validate_record_lookup now record) as (validated & Hv & Hl).
  exists validated. split_and!; [done | | intros; apply Qle_bool_iff].
  rewrite Hl. by destruct (record !! "password").
Qed.

Example validate_password_Pass123 :
  let r := validate_password "Pass123!" default_min_length in
  (score r == 100)%Q ∧ rating r = "Excellent" ∧ checks_passed r = 4
  ∧ feedback r = [].
Proof. vm_compute. done. Qed.

(** C3, as amended.  [_validate_record] stores for a [phone] field the
    boolean of [validate_phone] with no detail, and for an [email] field
    the boolean of [validate_email] with the validator's message as the
    detail. *)
Theorem email_phone_verdicts (now : datetime) (record : record) :
  ∃ validated,
    _validate_record now record = Ok validated
    ∧ validated !! "email"
      = (λ value, {| valid := PBool (validate_email value).1;
                     details := PStr (validate_email value).2 |})
        <$> record !! "email"
    ∧ validated !! "phone"
      = (λ value, {| valid := PBool (validate_phone value); details := PNone |})
        <$> record !! "phone".
Proof.
  destruct (validate_record_lookup now record) as (validated & Hv & Hl).
  exists validated. split_and!; [done | |]; rewrite Hl.
  - by destruct (record !! "email").
  - by destruct (record !! "phone").
Qed.

(** C3 as stated fails: the verdict of an [email] field keeps the
    validator's message, its detail is not [None]. *)
Lemma email_message_kept :
  ∃ validated v,
    _validate_record a_moment {[ "email" := "user1@example.com" ]} = Ok validated
    ∧ validated !! "email" = Some v
    ∧ details v = PStr "Valid email"
    ∧ details v ≠ PNone.
Proof.
  destruct (validate_record_lookup a_moment {[ "email" := "user1@example.com" ]})
    as (validated & Hv & Hl).
  exists validated. eexists. split_and!; [done | | |].
  - rewrite Hl, lookup_singleton_eq. reflexivity.
  - vm_compute. reflexivity.
  - vm_compute. discriminate.
Qed.

(** The verdict stored for a [date] field, whatever its value: the
    pair [validate_date] returns sits under [valid], it is true as a
    condition, and the detail is [None]. *)
Lemma date_verdict (now : datetime) (record : record) :
  ∃ validated,
    _validate_record now record = Ok validated
    ∧ ∀ value, record !! "date" = Some value →
        ∃ r, validate_date now value = Ok r
             ∧ validated !! "date"
               = Some {| valid := of_date_result r; details := PNone |}
             ∧ truthy (of_date_result r) = true
             ∧ of_date_result r ≠ PBool true.
Proof.
  destruct (validate_record_lookup now record) as (validated & Hv & Hl).
  exists validated. split; [done |]. intros value Hd.
  destruct (validate_date_returns now value) as (r & Hr & _).
  exists r. split_and!; [done | | done | done].
  rewrite Hl, Hd. simpl. unfold field_verdict. simpl. by rewrite Hr.
Qed.

(** C2, evaluated where the code departs from it.  For a string that
    is no date, [validate_date] answers [(False, None)]; the verdict
    [_validate_record] stores holds that pair under [valid], which is
    true as a condition, where the claim has [False]. *)
Theorem date_verdict_not_a_date (now : datetime) :
  validate_date now "not-a-date" = Ok (false, None)
  ∧ ∃ validated v,
      _validate_record now {[ "date" := "not-a-date" ]} = Ok validated
      ∧ validated !! "date" = Some v
      ∧ valid v = PTuple [PBool false; PNone]
      ∧ valid v ≠ PBool false
      ∧ truthy (valid v) = true
      ∧ details v = PNone.
Proof.
  split; [vm_compute; reflexivity |].
  destruct (validate_record_lookup now {[ "date" := "not-a-date" ]})
    as (validated & Hv & Hl).
  exists validated. eexists. split_and!; [done | | | | |].
  - rewrite Hl, lookup_singleton_eq. vm_compute. reflexivity.
  - reflexivity.
  - discriminate.
  - reflexivity.
  - reflexivity.
Qed.

(** For a date that parses and is not in the future the pair is
    [(True, parsed)], again under [valid], and the detail is [None]
    where the claim has the parsed date. *)
Example date_verdict_2023_01_15 :
  ∃ validated d,
    _validate_record a_moment {[ "date" := "2023-01-15" ]} = Ok validated
    ∧ validate_date a_moment "2023-01-15" = Ok (true, Some d)
    ∧ validated !! "date"
      = Some {| valid := PTuple [PBool true; PDatetime d]; details := PNone |}.
Proof.
  destruct (validate_record_lookup a_moment {[ "date" := "2023-01-15" ]})
    as (validated & Hv & Hl).
  exists validated. eexists. split_and!; [done | vm_compute; reflexivity |].
  rewrite Hl, lookup_singleton_eq. vm_compute. reflexivity.
Qed.

(** C9.  Each of the four validators of the dispatch table returns for
    every string, with a value of the type it declares; the table has
    no other entry, and [validate_date] turns every failure of the
    parser into [(False, None)]. *)
Theorem validators_return (now : datetime) (value : string) :
  Forall (λ field,
            ∃ validator v,
              validation_rules now !! field = Some validator
              ∧ validator value = Ok v
              ∧ has_declared_type field v)
         known_fields
  ∧ dom (validation_rules now) = list_to_set known_fields
  ∧ (∃ r, validate_date now value = Ok r
          ∧ (r = (false, None) ∨ ∃ d, r = (true, Some d)))
  ∧ validate_email EmptyString = (false, "Invalid email format")
  ∧ validate_phone EmptyString = false
  ∧ validate_date now EmptyString = Ok (false, None)
  ∧ score (validate_password EmptyString default_min_length) = 0%Q.
Proof.
  split_and!.
  - unfold known_fields, has_declared_type. rewrite !Forall_cons. split_and!.
    + do 2 eexists. split_and!; [reflexivity | reflexivity |].
      left. split; [done |]. by do 2 eexists.
    + do 2 eexists. split_and!; [reflexivity | reflexivity |].
      right; left. split; [done |]. by eexists.
    + destruct (validate_date_returns now value) as (r & Hr & Hcases).
      do 2 eexists. split_and!; [reflexivity | simpl; by rewrite Hr |].
      right; right; left. split; [done |].
      destruct Hcases as [-> | (d & _ & _ & ->)]; [by left | right; by exists d].
    + do 2 eexists. split_and!; [reflexivity | reflexivity |].
      right; right; right. split; [done |]. by eexists.
    + apply Forall_nil_2.
  - unfold validation_rules, known_fields. rewrite !dom_insert_L, dom_singleton_L.
    simpl. set_solver.
  - destruct (validate_date_returns now value) as (r & Hr & Hcases).
    exists r. split; [done |].
    destruct Hcases as [-> | (d & _ & _ & ->)]; [by left | right; by exists d].
  - vm_compute. reflexivity.
  - vm_compute. reflexivity.
  - vm_compute. reflexivity.
  - vm_compute. reflexivity.
Qed.

(** ** The batch processor *)

Lemma all_valid_spec (validated : verdicts) :
  all_valid validated = true ↔ record_passed validated.
Proof.
  unfold all_valid, record_passed. rewrite forallb_forall, map_Forall_to_list,
    Forall_forall.
  split.
  - intros H [k v] Hkv. simpl. apply H, list_elem_of_In, list_elem_of_fmap.
    by exists (k, v).
  - intros H v Hv. apply list_elem_of_In, list_elem_of_fmap in Hv as ([k v'] & -> & Hkv).
    by apply (H (k, v')).
Qed.

(** One record: the total goes up by one, and so does [passed] or
    [failed], according to the truth of the record's verdicts. *)
Lemma update_statistics_spec (v : verdicts) (stats : Stats) :
  let stats' := update_statistics v stats in
  total stats' = total stats + 1
  ∧ passed stats' = passed stats + (if decide (record_passed v) then 1 else 0)
  ∧ failed stats' = failed stats + (if decide (record_passed v) then 0 else 1)
  ∧ pass_rate stats' = pass_rate stats.
Proof.
  intros stats'. subst stats'. unfold update_statistics.
  destruct (decide (record_passed v)) as [Hp | Hp].
  - rewrite (proj2 (all_valid_spec v) Hp). simpl. split_and!; [done | done | lia | done].
  - destruct (all_valid v) eqn:Hv; [by apply all_valid_spec in Hv |].
    simpl. split_and!; [done | lia | done | done].
Qed.

Lemma tally_spec (vs : list verdicts) (stats : Stats) :
  total (tally vs stats) = total stats + Z.of_nat (length vs)
  ∧ passed (tally vs stats) = passed stats + count_passed vs
  ∧ failed (tally vs stats) = failed stats + count_failed vs
  ∧ pass_rate (tally vs stats) = pass_rate stats.
Proof.
  unfold tally, count_passed, count_failed. revert stats.
  induction vs as [|v vs IH]; intros stats; simpl.
  - split_and!; [lia | lia | lia | done].
  - destruct (IH (update_statistics v stats)) as (Ht & Hp & Hf & Hr).
    destruct (update_statistics_spec v stats) as (Ht' & Hp' & Hf' & Hr').
    rewrite Ht, Hp, Hf, Hr, Ht', Hp', Hf', Hr'.
    rewrite !filter_cons. destruct (decide (record_passed v)).
    + rewrite decide_False by tauto. simpl. split_and!; [lia | lia | lia | done].
    + rewrite decide_True by done. simpl. split_and!; [lia | lia | lia | done].
Qed.

Lemma verdicts_of_cons (clock : nat → datetime) (i : nat) (r : record)
    (data : list record) :
  verdicts_of clock i (r :: data)
  = map_imap (field_verdict (clock i)) r :: verdicts_of clock (S i) data.
Proof.
  unfold verdicts_of. simpl. rewrite Nat.add_0_r. f_equal.
  apply imap_ext. intros j x _. simpl. do 3 f_equal. lia.
Qed.

Lemma process_records_spec (clock : nat → datetime) (data : list record) :
  ∀ i results stats,
    process_records clock i data results stats
    = (Ok (results ++ verdicts_of clock i data), tally (verdicts_of clock i data) stats).
Proof.
  induction data as [|r data IH]; intros i results stats.
  - simpl. by rewrite app_nil_r.
  - rewrite verdicts_of_cons. simpl.
    by rewrite validate_record_spec, IH, <- app_assoc.
Qed.

(** [process_batch] returns the verdicts of the records, in input
    order, and leaves the tally of those verdicts. *)
Lemma process_batch_spec (clock : nat → datetime) (data : list record)
    (stats : Stats) :
  process_batch clock data stats
  = (Ok (verdicts_of clock 0 data), tally (verdicts_of clock 0 data) stats).
Proof. unfold process_batch. by rewrite process_records_spec. Qed.

Lemma verdicts_of_length (clock : nat → datetime) (i : nat) (data : list record) :
  length (verdicts_of clock i data) = length data.
Proof. unfold verdicts_of. by rewrite length_imap. Qed.

Lemma verdicts_of_lookup (clock : nat → datetime) (data : list record) (j : nat)
    (r : record) :
  data !! j = Some r →
  ∃ v, verdicts_of clock 0 data !! j = Some v
       ∧ _validate_record (clock j) r = Ok v
       ∧ ∀ field, v !! field = r !! field ≫= field_verdict (clock j) field.
Proof.
  intros Hj. exists (map_imap (field_verdict (clock j)) r). split_and!.
  - unfold verdicts_of. by rewrite list_lookup_imap, Hj.
  - apply validate_record_spec.
  - intros field. apply map_lookup_imap.
Qed.

(** The counting rule of the batch processor: a record goes to
    [passed] exactly when each of its verdicts is true as a condition,
    and the verdicts are those of the fields the record has among the
    four known ones. *)
Lemma process_batch_counts (clock : nat → datetime) (data : list record)
    (stats : Stats) :
  ∃ results stats',
    process_batch clock data stats = (Ok results, stats')
    ∧ length results = length data
    ∧ total stats' = total stats + Z.of_nat (length data)
    ∧ passed stats' = passed stats + count_passed results
    ∧ failed stats' = failed stats + count_failed results
    ∧ pass_rate stats' = pass_rate stats.
Proof.
  exists (verdicts_of clock 0 data), (tally (verdicts_of clock 0 data) stats).
  destruct (tally_spec (verdicts_of clock 0 data) stats) as (Ht & Hp & Hf & Hr).
  rewrite verdicts_of_length in Ht.
  split_and!; try done; [apply process_batch_spec | apply verdicts_of_length].
Qed.

(** A verdict exists for the fields of the record that are known, and
    for no other. *)
Lemma verdict_fields (now : datetime) (field value : string) :
  is_Some (field_verdict now field value) ↔ field ∈ known_fields.
Proof.
  unfold field_verdict, known_fields. rewrite !elem_of_cons, elem_of_nil.
  destruct (decide (field = "email")) as [-> | He]; [split; [by left | by eauto] |].
  rewrite (bool_decide_eq_false_2 _ He).
  destruct (decide (field = "password")) as [-> | Hp];
    [split; [right; by left | by eauto] |].
  rewrite (bool_decide_eq_false_2 _ Hp).
  destruct (decide (field = "date")) as [-> | Hd].
  { destruct (validate_date_returns now value) as (r & Hr & _).
    rewrite bool_decide_eq_true_2, Hr by done.
    split; [right; right; by left | by eauto]. }
  rewrite (bool_decide_eq_false_2 _ Hd).
  destruct (decide (field = "phone")) as [-> | Hph];
    [split; [do 3 right; by left | by eauto] |].
  rewrite (bool_decide_eq_false_2 _ Hph).
  split; [by intros [? ?] | tauto].
Qed.


Lemma verdicts_of_nil (clock : nat → datetime) (i : nat) : verdicts_of clock i [] = [].
Proof. reflexivity. Qed.

(** The verdicts of the record whose only field is a date that does
    not parse. *)
Lemma not_a_date_verdicts (now : datetime) :
  _validate_record now not_a_date_record
  = Ok {[ "date" := {| valid := PTuple [PBool false; PNone]; details := PNone |} ]}.
Proof.
  rewrite validate_record_spec. reflexivity.
Qed.

(** C1, evaluated where the code departs from it.  The record whose
    only field is a date that does not parse is counted as passed, while
    the one verdict produced for it has the pair [(False, None)] under
    [valid], not [True]. *)
Theorem unparsable_date_counted_passed (clock : nat → datetime) :
  ∃ validated stats',
    process_batch clock [not_a_date_record] init = (Ok [validated], stats')
    ∧ passed stats' = 1 ∧ failed stats' = 0
    ∧ validated !! "date"
      = Some {| valid := PTuple [PBool false; PNone]; details := PNone |}
    ∧ ¬ all_verdicts_true validated.
Proof.
  set (v := {| valid := PTuple [PBool false; PNone]; details := PNone |}).
  assert (Hvs : verdicts_of clock 0 [not_a_date_record] = [ {[ "date" := v ]} ]).
  { rewrite verdicts_of_cons, verdicts_of_nil. reflexivity. }
  assert (Hpassed : record_passed ({[ "date" := v ]} : verdicts)).
  { by apply map_Forall_singleton. }
  exists {[ "date" := v ]}, (tally [ {[ "date" := v ]} ] init).
  rewrite process_batch_spec, Hvs.
  destruct (tally_spec [ ({[ "date" := v ]} : verdicts) ] init) as (_ & Hp & Hf & _).
  unfold count_passed, count_failed in Hp, Hf.
  rewrite filter_cons, filter_nil, decide_True in Hp by done.
  rewrite filter_cons, filter_nil, decide_False in Hf by tauto.
  split_and!; [done | by rewrite Hp | by rewrite Hf | apply lookup_singleton_eq |].
  intros Hall. specialize (Hall "date" v (lookup_singleton_eq _ _)). done.
Qed.

(** ** The statistics of a processor *)

Lemma count_passed_failed (vs : list verdicts) :
  count_passed vs + count_failed vs = Z.of_nat (length vs)
  ∧ 0 ≤ count_passed vs ∧ 0 ≤ count_failed vs.
Proof.
  unfold count_passed, count_failed. split; [| lia].
  induction vs as [|v vs IH]; [done |].
  rewrite !filter_cons. destruct (decide (record_passed v)).
  - rewrite decide_False by tauto. simpl. lia.
  - rewrite decide_True by done. simpl. lia.
Qed.

Lemma reachable_invariant (stats : Stats) :
  reachable stats →
  total stats = passed stats + failed stats
  ∧ 0 ≤ passed stats ∧ 0 ≤ failed stats
  ∧ (total stats = 0 → pass_rate stats = None).
Proof.
  induction 1 as [| clock data stats out stats' _ IH Hrun
                  | stats out stats' _ IH Hrun].
  - simpl. split_and!; done.
  - destruct IH as (Ht & Hp & Hf & Hr).
    destruct (process_batch_counts clock data stats)
      as (results & stats'' & Hrun' & Hlen & Ht' & Hp' & Hf' & Hr').
    rewrite Hrun in Hrun'. injection Hrun' as _ <-.
    destruct (count_passed_failed results) as (Hsum & Hcp & Hcf).
    rewrite Ht', Hp', Hf', Hr'. split_and!; [lia | lia | lia |].
    intros Hz. apply Hr. lia.
  - destruct IH as (Ht & Hp & Hf & Hr). unfold get_statistics in Hrun.
    destruct (total stats =? 0) eqn:Hz.
    + injection Hrun as _ <-. done.
    + apply Z.eqb_neq in Hz. injection Hrun as _ <-. simpl.
      split_and!; done.
Qed.

(** C10.  After a call of [process_batch] the counts satisfy
    [total = passed + failed], none of them is negative, and the total
    has grown by the length of the batch. *)
Theorem process_batch_invariant (stats : Stats) (clock : nat → datetime)
    (data : list record) (Hreach : reachable stats) :
  ∃ results stats',
    process_batch clock data stats = (Ok results, stats')
    ∧ total stats' = passed stats' + failed stats'
    ∧ 0 ≤ total stats' ∧ 0 ≤ passed stats' ∧ 0 ≤ failed stats'
    ∧ total stats' = total stats + Z.of_nat (length data).
Proof.
  destruct (process_batch_counts clock data stats)
    as (results & stats' & Hrun & _ & Ht' & _).
  exists results, stats'. split; [done |].
  destruct (reachable_invariant stats'
              (reachable_process_batch clock data stats _ stats' Hreach Hrun))
    as (Ht & Hp & Hf & _).
  split_and!; [done | lia | done | done | done].
Qed.

Lemma process_batch_invariant_witness :
  reachable init
  ∧ ∃ results stats',
      process_batch (λ _, a_moment) sample_batch init = (Ok results, stats')
      ∧ total stats' = passed stats' + failed stats'
      ∧ 0 ≤ total stats' ∧ 0 ≤ passed stats' ∧ 0 ≤ failed stats'
      ∧ total stats' = total init + Z.of_nat (length sample_batch).
Proof.
  split; [apply reachable_init |].
  apply (process_batch_invariant init (λ _, a_moment) sample_batch).
  apply reachable_init.
Defined.

(** ** The statistics as the interpreter computes them *)

(** *** Rounding *)

Lemma rne_bounds (n d : Z) : 0 ≤ n → 0 < d → 0 ≤ Binary64.rne n d ≤ n / d + 1.
Proof.
  intros Hn Hd. unfold Binary64.rne.
  pose proof (Z.div_pos n d Hn Hd).
  destruct (2 * (n mod d) <? d); [lia |].
  destruct (d <? 2 * (n mod d)); [lia |].
  destruct (Z.even (n / d)); lia.
Qed.

Lemma ilog2_le (n d : positive) (b : Z) :
  0 ≤ b → Zpos n ≤ 2 ^ b * Zpos d → Binary64.ilog2 n d ≤ b.
Proof.
  intros Hb Hn. unfold Binary64.ilog2.
  assert (Hk : Z.log2 (Zpos n) - Z.log2 (Zpos d) ≤ b).
  { pose proof (Z.log2_le_mono _ _ Hn) as Hl.
    rewrite Z.mul_comm, Z.log2_mul_pow2 in Hl by lia. lia. }
  destruct (if 0 <=? _ then _ else _); lia.
Qed.

(** A quotient of at most [2^1000] rounds to a finite float. *)
Lemma round_pos_finite (n d : positive) :
  Zpos n ≤ 2 ^ 1000 * Zpos d → ∃ v, Binary64.round_pos n d = Some v.
Proof.
  intros Hn. unfold Binary64.round_pos.
  pose proof (ilog2_le n d 1000 ltac:(lia) Hn) as Hlog.
  set (e := Z.max (Binary64.ilog2 n d - 52) (-1074)).
  assert (He : -1074 ≤ e ≤ 948) by lia.
  clearbody e.
  set (big := 2 ^ 1024). set (bound := 2 ^ 1000) in *.
  assert (Hbig : 2 * bound + 2 ^ 948 < big).
  { subst big bound. vm_compute. reflexivity. }
  assert (Hbound : 0 < bound) by (subst bound; apply Z.pow_pos_nonneg; lia).
  clearbody big bound.
  match goal with |- ∃ v, (if Qle_bool ?a ?b then _ else _) = _ =>
    assert (Hlt : (b < a)%Q); [| apply Qle_bool_false in Hlt; rewrite Hlt; by eexists] end.
  destruct (0 <=? e) eqn:Hsign.
  - apply Z.leb_le in Hsign.
    assert (Hp : 0 < 2 ^ e) by (apply Z.pow_pos_nonneg; lia).
    assert (Hp' : 2 ^ e ≤ 2 ^ 948) by (apply Z.pow_le_mono_r; lia).
    destruct (rne_bounds (Zpos n) (Zpos d * 2 ^ e)) as [Hm0 Hm]; [lia | lia |].
    rewrite <- Zlt_Qlt.
    assert (Hq : Zpos n / (Zpos d * 2 ^ e) * 2 ^ e ≤ bound).
    { rewrite <- Z.div_div by lia.
      pose proof (Z.mul_div_le (Zpos n / Zpos d) (2 ^ e) Hp).
      assert (Zpos n / Zpos d ≤ bound); [| lia].
      apply Z.div_le_upper_bound; lia. }
    nia.
  - apply Z.leb_gt in Hsign.
    assert (Hp : 0 < 2 ^ (- e)) by (apply Z.pow_pos_nonneg; lia).
    destruct (rne_bounds (Zpos n * 2 ^ (- e)) (Zpos d)) as [Hm0 Hm]; [lia | lia |].
    rewrite Qred_correct. unfold Qlt. simpl. rewrite Z2Pos.id by done.
    assert (Hq : Zpos n * 2 ^ (- e) / Zpos d ≤ bound * 2 ^ (- e)).
    { apply Z.div_le_upper_bound; [lia |]. nia. }
    nia.
Qed.

Lemma round_finite (x : Q) :
  Z.abs (Qnum x) ≤ 2 ^ 1000 * Zpos (Qden x) → ∃ q, Binary64.round x = Binary64.Finite q.
Proof.
  intros Hx. unfold Binary64.round. destruct (Qnum x) as [|n|n] eqn:Hn.
  - by eexists.
  - destruct (round_pos_finite n (Qden x)) as [v ->]; [lia |]. by eexists.
  - destruct (round_pos_finite n (Qden x)) as [v ->]; [lia |]. by eexists.
Qed.

(** The division of two ints returns when the quotient is at most
    [2^1000]. *)
Lemma true_div_returns (a b : Z) :
  0 < b → Z.abs a ≤ 2 ^ 1000 * b →
  ∃ q, Machine.true_div a b = Ok q
       ∧ Binary64.round (inject_Z a / inject_Z b) = Binary64.Finite q.
Proof.
  intros Hb Ha. unfold Machine.true_div.
  rewrite (proj2 (Z.eqb_neq _ _)) by lia.
  destruct (round_finite (inject_Z a / inject_Z b)) as [q Hq].
  - destruct b as [|b|b]; try lia. unfold Qdiv, Qmult, Qinv, inject_Z. simpl.
    rewrite Z.mul_1_r. done.
  - rewrite Hq. by exists q.
Qed.

(** *** The batch processor with a float under [pass_rate] *)

Lemma machine_update_statistics_spec (v : verdicts) (stats : Machine.Stats) :
  let stats' := Machine.update_statistics v stats in
  Machine.total stats' = Machine.total stats + 1
  ∧ Machine.passed stats'
    = Machine.passed stats + (if decide (record_passed v) then 1 else 0)
  ∧ Machine.failed stats'
    = Machine.failed stats + (if decide (record_passed v) then 0 else 1)
  ∧ Machine.pass_rate stats' = Machine.pass_rate stats.
Proof.
  intros stats'. subst stats'. unfold Machine.update_statistics.
  destruct (decide (record_passed v)) as [Hp | Hp].
  - rewrite (proj2 (all_valid_spec v) Hp). simpl. split_and!; [done | done | lia | done].
  - destruct (all_valid v) eqn:Hv; [by apply all_valid_spec in Hv |].
    simpl. split_and!; [done | lia | done | done].
Qed.

Lemma machine_tally_spec (vs : list verdicts) (stats : Machine.Stats) :
  Machine.total (machine_tally vs stats) = Machine.total stats + Z.of_nat (length vs)
  ∧ Machine.passed (machine_tally vs stats) = Machine.passed stats + count_passed vs
  ∧ Machine.failed (machine_tally vs stats) = Machine.failed stats + count_failed vs
  ∧ Machine.pass_rate (machine_tally vs stats) = Machine.pass_rate stats.
Proof.
  unfold machine_tally, count_passed, count_failed. revert stats.
  induction vs as [|v vs IH]; intros stats; simpl.
  - split_and!; [lia | lia | lia | done].
  - destruct (IH (Machine.update_statistics v stats)) as (Ht & Hp & Hf & Hr).
    destruct (machine_update_statistics_spec v stats) as (Ht' & Hp' & Hf' & Hr').
    rewrite Ht, Hp, Hf, Hr, Ht', Hp', Hf', Hr'.
    rewrite !filter_cons. destruct (decide (record_passed v)).
    + rewrite decide_False by tauto. simpl. split_and!; [lia | lia | lia | done].
    + rewrite decide_True by done. simpl. split_and!; [lia | lia | lia | done].
Qed.

Lemma machine_process_records_spec (clock : nat → datetime) (data : list record) :
  ∀ i results stats,
    Machine.process_records clock i data results stats
    = (Ok (results ++ verdicts_of clock i data),
       machine_tally (verdicts_of clock i data) stats).
Proof.
  induction data as [|r data IH]; intros i results stats.
  - simpl. by rewrite app_nil_r.
  - rewrite verdicts_of_cons. simpl.
    by rewrite validate_record_spec, IH, <- app_assoc.
Qed.

(** The batch processor counts as before; the float under [pass_rate]
    is left as it is. *)
Lemma machine_process_batch_counts (clock : nat → datetime) (data : list record)
    (stats : Machine.Stats) :
  ∃ results stats',
    Machine.process_batch clock data stats = (Ok results, stats')
    ∧ length results = length data
    ∧ Machine.total stats' = Machine.total stats + Z.of_nat (length data)
    ∧ Machine.passed stats' = Machine.passed stats + count_passed results
    ∧ Machine.failed stats' = Machine.failed stats + count_failed results
    ∧ Machine.pass_rate stats' = Machine.pass_rate stats.
Proof.
  exists (verdicts_of clock 0 data), (machine_tally (verdicts_of clock 0 data) stats).
  destruct (machine_tally_spec (verdicts_of clock 0 data) stats) as (Ht & Hp & Hf & Hr).
  rewrite verdicts_of_length in Ht.
  split_and!; try done; [| apply verdicts_of_length].
  unfold Machine.process_batch. by rewrite machine_process_records_spec.
Qed.

(** The two processors count alike: from statistics with the same
    counts, [process_batch] returns the same verdicts and leaves the
    same counts, whichever form [pass_rate] has. *)
Lemma machine_process_batch_agrees (clock : nat → datetime) (data : list record)
    (stats : Stats) (mstats : Machine.Stats) :
  Machine.total mstats = total stats →
  Machine.passed mstats = passed stats →
  Machine.failed mstats = failed stats →
  ∃ results stats' mstats',
    process_batch clock data stats = (Ok results, stats')
    ∧ Machine.process_batch clock data mstats = (Ok results, mstats')
    ∧ Machine.total mstats' = total stats'
    ∧ Machine.passed mstats' = passed stats'
    ∧ Machine.failed mstats' = failed stats'.
Proof.
  intros Ht Hp Hf.
  exists (verdicts_of clock 0 data), (tally (verdicts_of clock 0 data) stats),
    (machine_tally (verdicts_of clock 0 data) mstats).
  destruct (tally_spec (verdicts_of clock 0 data) stats) as (Ht1 & Hp1 & Hf1 & _).
  destruct (machine_tally_spec (verdicts_of clock 0 data) mstats)
    as (Ht2 & Hp2 & Hf2 & _).
  split_and!; [apply process_batch_spec | | lia | lia | lia].
  unfold Machine.process_batch. by rewrite machine_process_records_spec.
Qed.

Lemma machine_reachable_invariant (stats : Machine.Stats) :
  Machine.reachable stats →
  Machine.total stats = Machine.passed stats + Machine.failed stats
  ∧ 0 ≤ Machine.passed stats ∧ 0 ≤ Machine.failed stats
  ∧ (Machine.total stats = 0 → Machine.pass_rate stats = None).
Proof.
  induction 1 as [| clock data stats out stats' _ IH Hrun
                  | stats out stats' _ IH Hrun].
  - simpl. split_and!; done.
  - destruct IH as (Ht & Hp & Hf & Hr).
    destruct (machine_process_batch_counts clock data stats)
      as (results & stats'' & Hrun' & Hlen & Ht' & Hp' & Hf' & Hr').
    rewrite Hrun in Hrun'. injection Hrun' as _ <-.
    destruct (count_passed_failed results) as (Hsum & Hcp & Hcf).
    rewrite Ht', Hp', Hf', Hr'. split_and!; [lia | lia | lia |].
    intros Hz. apply Hr. lia.
  - destruct IH as (Ht & Hp & Hf & Hr). unfold Machine.get_statistics in Hrun.
    destruct (Machine.total stats =? 0) eqn:Hz.
    + injection Hrun as _ <-. done.
    + apply Z.eqb_neq in Hz.
      destruct (Machine.true_div _ _); injection Hrun as _ <-; simpl;
        split_and!; done.
Qed.

(** C7.  The counts of two successive calls of [process_batch] add up
    on top of what the processor held (batches of 3 and 2 records take
    a fresh processor to a total of 5), and [get_statistics] returns
    the statistics, with [pass_rate = passed / total * 100] as the
    interpreter computes the expression when the total is positive,
    and without a [pass_rate] when it is zero: the quotient of the two
    counts is a finite float, and [pass_rate] is its product by 100,
    both rounded to binary64. *)
Theorem stats_accumulate_and_pass_rate (stats : Machine.Stats)
    (clock1 clock2 : nat → datetime) (data1 data2 : list record)
    (Hreach : Machine.reachable stats) :
  (∃ results1 stats1 results2 stats2,
     Machine.process_batch clock1 data1 stats = (Ok results1, stats1)
     ∧ Machine.process_batch clock2 data2 stats1 = (Ok results2, stats2)
     ∧ Machine.total stats2
       = Machine.total stats + Z.of_nat (length data1) + Z.of_nat (length data2)
     ∧ Machine.passed stats2
       = Machine.passed stats + count_passed results1 + count_passed results2
     ∧ Machine.failed stats2
       = Machine.failed stats + count_failed results1 + count_failed results2
     ∧ (stats = Machine.init → length data1 = 3%nat → length data2 = 2%nat →
        Machine.total stats2 = 5))
  ∧ (∃ out,
       Machine.get_statistics stats = (Ok out, out)
       ∧ Machine.total out = Machine.total stats
       ∧ Machine.passed out = Machine.passed stats
       ∧ Machine.failed out = Machine.failed stats
       ∧ (if decide (0 < Machine.total stats)
          then ∃ quotient,
                 Binary64.round (inject_Z (Machine.passed stats)
                                 / inject_Z (Machine.total stats))
                 = Binary64.Finite quotient
                 ∧ Machine.pass_rate out
                   = Some (Binary64.mul (Binary64.Finite quotient)
                                        (Binary64.Finite 100))
          else Machine.pass_rate out = None)
       ∧ (Machine.total stats = 0 ↔ ¬ 0 < Machine.total stats)).
Proof.
  destruct (machine_reachable_invariant stats Hreach) as (Ht & Hp & Hf & Hr). split.
  - destruct (machine_process_batch_counts clock1 data1 stats)
      as (results1 & stats1 & Hrun1 & _ & Ht1 & Hp1 & Hf1 & _).
    destruct (machine_process_batch_counts clock2 data2 stats1)
      as (results2 & stats2 & Hrun2 & _ & Ht2 & Hp2 & Hf2 & _).
    exists results1, stats1, results2, stats2.
    split_and!; [done | done | lia | lia | lia |].
    intros -> H1 H2. rewrite Ht2, Ht1, H1, H2. done.
  - unfold Machine.get_statistics. destruct (Machine.total stats =? 0) eqn:Hz.
    + apply Z.eqb_eq in Hz. exists stats. rewrite decide_False by lia.
      split_and!; [done | done | done | done | by apply Hr | lia].
    + apply Z.eqb_neq in Hz.
      destruct (true_div_returns (Machine.passed stats) (Machine.total stats))
        as (q & -> & Hq); [lia | |].
      { assert (1 ≤ 2 ^ 1000) by (apply (Z.pow_le_mono_r 2 0 1000); lia). nia. }
      eexists. rewrite decide_True by lia.
      split_and!; [reflexivity | done | done | done | | lia].
      exists q. split; [done | reflexivity].
Qed.

Lemma stats_accumulate_and_pass_rate_witness :
  Machine.reachable Machine.init
  ∧ ∃ results1 stats1 results2 stats2,
      Machine.process_batch (λ _, a_moment) sample_batch Machine.init
      = (Ok results1, stats1)
      ∧ Machine.process_batch (λ _, a_moment) sample_batch stats1
        = (Ok results2, stats2)
      ∧ Machine.total stats2 = 2.
Proof.
  split; [apply Machine.fresh |].
  destruct (stats_accumulate_and_pass_rate Machine.init (λ _, a_moment) (λ _, a_moment)
              sample_batch sample_batch Machine.fresh)
    as [(results1 & stats1 & results2 & stats2 & H1 & H2 & Ht & _) _].
  exists results1, stats1, results2, stats2. split_and!; [done | done |].
  rewrite Ht. reflexivity.
Defined.

(** The rounding is visible: 7 records passed out of 25 give
    28.000000000000004, which is [28 + 2^-48], and 1 out of 3 gives
    33.33333333333333, which is [2345624805922133 / 2^46]. *)
Example pass_rate_7_of_25 :
  ∃ out, Machine.get_statistics seven_of_25 = (Ok out, out)
         ∧ Machine.pass_rate out
           = Some (Binary64.Finite (7881299347898369 # 281474976710656))
         ∧ (7881299347898369 # 281474976710656 == 28 + 1 / inject_Z (2 ^ 48))%Q
         ∧ Binary64.round (7 # 25) = Binary64.Finite (1261007895663739 # 4503599627370496).
Proof.
  eexists. split_and!; [vm_compute; reflexivity | reflexivity | reflexivity
                       | vm_compute; reflexivity].
Qed.

Example pass_rate_1_of_3 :
  ∃ out, Machine.get_statistics one_of_3 = (Ok out, out)
         ∧ Machine.pass_rate out
           = Some (Binary64.Finite (2345624805922133 # 70368744177664)).
Proof. eexists. split; [vm_compute; reflexivity | reflexivity]. Qed.

(** [Binary64.round] and [Binary64.mul] give what the processor gives. *)
Example round_as_the_processor :
  Forall (λ '(a, b), agree a b)
    [(7, 25); (1, 3); (4, 3); (5, 2); (2, 3); (1, 10); (-7, 25); (0, 5);
     (123456789, 987654321); (9007199254740991, 9007199254740992);
     (1, 9007199254740992)].
Proof. repeat constructor; vm_compute; reflexivity. Qed.

Example product_as_the_processor :
  value_of (PrimFloat.mul (PrimFloat.div (of_int 7) (of_int 25)) (of_int 100))
  = Binary64.mul (Binary64.round (7 # 25)) (Binary64.Finite 100).
Proof. vm_compute. reflexivity. Qed.

(** ** Pattern detection *)

Lemma split_chars_at (s : list ascii) :
  ∃ rest, split_chars "@" s = up_to_at s :: rest
          ∧ rest !! 0%nat = between_ats s.
Proof.
  unfold between_ats. induction s as [|c s (rest & Hs & Hrest)]; simpl.
  - by exists [].
  - case_bool_decide.
    + exists (split_chars "@" s). split; [done |]. by rewrite Hs.
    + rewrite Hs. by exists rest.
Qed.

(** [email.split('@')[1]] is what lies between the first [@] and the
    next. *)
Lemma split_at_1 (email : string) :
  split "@" email !! 1%nat = of_chars <$> between_ats (chars email).
Proof.
  unfold split. rewrite list_lookup_fmap.
  destruct (split_chars_at (chars email)) as (rest & -> & <-). done.
Qed.

Lemma str_in_at (email : string) :
  str_in "@" email = bool_decide (is_Some (between_ats (chars email))).
Proof.
  unfold str_in, between_ats. simpl. induction (chars email) as [|c s IH]; simpl.
  - done.
  - rewrite IH, andb_true_r. destruct (decide (c = "@"%char)) as [-> | Hc].
    + done.
    + rewrite (bool_decide_eq_false_2 ("@"%char = c)) by congruence.
      by rewrite (bool_decide_eq_false_2 (c = "@"%char)) by done.
Qed.

Lemma scan_record_spec (record : record) (patterns : Patterns) :
  scan_record record patterns = Ok (scanned record patterns).
Proof.
  unfold scan_record, scanned, domain_key.
  destruct (record !! "email") as [email|]; simpl.
  - rewrite str_in_at, split_at_1.
    destruct (between_ats (chars email)) as [d|]; simpl;
      destruct (record !! "password"); simpl; rewrite ?app_nil_r;
      first [done | by destruct patterns].
  - destruct (record !! "password"); simpl; [done |].
    rewrite app_nil_r. by destruct patterns.
Qed.

Lemma scan_all (data : list record) :
  ∀ patterns,
    foldl (λ acc record, patterns ← acc; scan_record record patterns)
          (Ok patterns) data
    = Ok (foldl (λ p r, scanned r p) patterns data).
Proof.
  induction data as [|r data IH]; intros patterns; simpl; [done |].
  by rewrite scan_record_spec, IH.
Qed.

Lemma counts_nil : counts [] ∅.
Proof. intros d. by rewrite lookup_empty. Qed.

Lemma counts_snoc (keys : list string) (h : gmap string Z) (d : string) :
  counts keys h → counts (keys ++ [d]) (<[d := default 0 (h !! d) + 1]> h).
Proof.
  intros Hc d'. simpl. rewrite filter_app, length_app, filter_cons, filter_nil.
  destruct (decide (d = d')) as [-> | Hne].
  - rewrite lookup_insert_eq, Hc. simpl.
    destruct (length (filter (λ k, k = d') keys)) as [|n] eqn:Hn; simpl.
    + done.
    + replace (S n + 1 =? 0)%nat with false by (symmetry; apply Nat.eqb_neq; lia).
      f_equal. lia.
  - rewrite lookup_insert_ne, Hc by done. simpl. by rewrite Nat.add_0_r.
Qed.

Lemma scanned_all (data : list record) :
  ∀ keys patterns,
    counts keys (email_domains patterns) →
    let patterns' := foldl (λ p r, scanned r p) patterns data in
    counts (keys ++ domain_keys between_ats data) (email_domains patterns')
    ∧ password_lengths patterns' = password_lengths patterns ++ lengths_of data
    ∧ date_range patterns' = date_range patterns
    ∧ password_stats patterns' = password_stats patterns.
Proof.
  unfold domain_keys, lengths_of.
  induction data as [|r data IH]; intros keys patterns Hc; simpl.
  - rewrite !app_nil_r. done.
  - fold (domain_key r).
    destruct (domain_key r) as [d|] eqn:Hd.
    + destruct (IH (keys ++ [d]) (scanned r patterns)) as (Hc' & Hl & Hr & Hs).
      { unfold scanned. simpl. rewrite Hd. by apply counts_snoc. }
      rewrite <- app_assoc in Hc'. simpl in *.
      split_and!; [done | | done | done].
      rewrite Hl. destruct (r !! "password"); simpl; by rewrite <- app_assoc.
    + destruct (IH keys (scanned r patterns)) as (Hc' & Hl & Hr & Hs).
      { unfold scanned. simpl. by rewrite Hd. }
      simpl in *. split_and!; [done | | done | done].
      rewrite Hl. destruct (r !! "password"); simpl; by rewrite <- app_assoc.
Qed.

Lemma foldl_min_spec (l : list Z) :
  ∀ x, foldl Z.min x l ∈ x :: l ∧ ∀ y, y ∈ x :: l → foldl Z.min x l ≤ y.
Proof.
  induction l as [|z l IH]; intros x; simpl.
  - split; [apply elem_of_cons; by left |].
    intros y Hy. apply list_elem_of_singleton in Hy. lia.
  - destruct (IH (Z.min x z)) as (Hin & Hle).
    assert (Hm : foldl Z.min (Z.min x z) l ≤ Z.min x z)
      by (apply Hle, elem_of_cons; by left).
    split.
    + rewrite !elem_of_cons in *. destruct Hin as [Hin | Hin]; [| tauto].
      rewrite Hin. destruct (Z.min_spec x z) as [[_ ->] | [_ ->]]; tauto.
    + intros y Hy. rewrite !elem_of_cons in Hy.
      destruct Hy as [-> | [-> | Hy]]; [lia | lia |].
      apply Hle, elem_of_cons. by right.
Qed.

Lemma foldl_max_spec (l : list Z) :
  ∀ x, foldl Z.max x l ∈ x :: l ∧ ∀ y, y ∈ x :: l → y ≤ foldl Z.max x l.
Proof.
  induction l as [|z l IH]; intros x; simpl.
  - split; [apply elem_of_cons; by left |].
    intros y Hy. apply list_elem_of_singleton in Hy. lia.
  - destruct (IH (Z.max x z)) as (Hin & Hle).
    assert (Hm : Z.max x z ≤ foldl Z.max (Z.max x z) l)
      by (apply Hle, elem_of_cons; by left).
    split.
    + rewrite !elem_of_cons in *. destruct Hin as [Hin | Hin]; [| tauto].
      rewrite Hin. destruct (Z.max_spec x z) as [[_ ->] | [_ ->]]; tauto.
    + intros y Hy. rewrite !elem_of_cons in Hy.
      destruct Hy as [-> | [-> | Hy]]; [lia | lia |].
      apply Hle, elem_of_cons. by right.
Qed.

Lemma sum_bounds (l : list Z) (lo hi : Z) :
  (∀ x, x ∈ l → lo ≤ x ≤ hi) →
  ∀ acc, acc + Z.of_nat (length l) * lo ≤ foldl Z.add acc l
         ≤ acc + Z.of_nat (length l) * hi.
Proof.
  induction l as [|x l IH]; intros Hl acc; simpl; [lia |].
  assert (Hx : lo ≤ x ≤ hi) by (apply Hl, elem_of_cons; by left).
  assert (Hl' : ∀ y, y ∈ l → lo ≤ y ≤ hi)
    by (intros y Hy; apply Hl, elem_of_cons; by right).
  specialize (IH Hl' (acc + x)). lia.
Qed.

Lemma lengths_of_nonneg (data : list record) (x : Z) :
  x ∈ lengths_of data → 0 ≤ x.
Proof.
  unfold lengths_of. intros Hx.
  apply list_elem_of_omap in Hx as (rec & _ & Hx).
  destruct (rec !! "password") as [p|]; [| done].
  injection Hx as <-. unfold len. lia.
Qed.

(** C8, as amended.  For a non-empty batch [detect_data_patterns]
    computes: the histogram that counts, for each record whose [email]
    field contains an [@], what lies between the first [@] and the next
    one (or the end of the string), whether or not the address is
    valid; the lengths of the [password] fields in input order; and,
    exactly when there is such a length, their minimum, their maximum
    and their average, which is the quotient of their sum by their
    number rounded to binary64 (the division raises [OverflowError] if
    that is beyond the largest float, which needs a password of more
    characters than a string can have).  For the empty batch it
    returns the empty dict. *)
Theorem detect_data_patterns_spec (data : list record) :
  (match data with
   | [] => Machine.detect_data_patterns data = Ok None
   | _ :: _ =>
       ∃ found,
         counts (domain_keys between_ats data) (email_domains found)
         ∧ password_lengths found = lengths_of data
         ∧ password_stats found = None
         ∧ match lengths_of data with
           | [] => Machine.detect_data_patterns data = Ok (Some found)
           | _ :: _ =>
               ∃ lo hi,
                 lo ∈ lengths_of data ∧ hi ∈ lengths_of data
                 ∧ (∀ x, x ∈ lengths_of data → lo ≤ x ≤ hi)
                 ∧ Machine.detect_data_patterns data
                   = match Binary64.round
                             (inject_Z (py_sum (lengths_of data))
                              / inject_Z (Z.of_nat (length (lengths_of data)))) with
                     | Binary64.Finite avg =>
                         Ok (Some {| email_domains := email_domains found;
                                     password_lengths := password_lengths found;
                                     date_range := date_range found;
                                     password_stats :=
                                       Some {| avg_length := avg;
                                               min_length := lo;
                                               max_length := hi |} |})
                     | _ => Raise OverflowError
                     end
                 ∧ (hi ≤ ssize_max →
                    ∃ avg,
                      Binary64.round
                        (inject_Z (py_sum (lengths_of data))
                         / inject_Z (Z.of_nat (length (lengths_of data))))
                      = Binary64.Finite avg)
           end
   end)
  ∧ (∃ patterns stats,
       Machine.detect_data_patterns two_passwords = Ok (Some patterns)
       ∧ password_lengths patterns = [3; 2]
       ∧ password_stats patterns = Some stats
       ∧ avg_length stats = 5 # 2 ∧ min_length stats = 2 ∧ max_length stats = 3)
  ∧ (∃ patterns stats,
       Machine.detect_data_patterns three_passwords = Ok (Some patterns)
       ∧ password_lengths patterns = [1; 1; 2]
       ∧ password_stats patterns = Some stats
       ∧ avg_length stats = 6004799503160661 # 4503599627370496
       ∧ ¬ (avg_length stats == 4 # 3)%Q).
Proof.
  split; [| split].
  2: { do 2 eexists.
       split_and!; [vm_compute; reflexivity | reflexivity | reflexivity | | |];
         reflexivity. }
  2: { do 2 eexists.
       split_and!; [vm_compute; reflexivity | reflexivity | reflexivity
                   | reflexivity | ].
       intros H. vm_compute in H. discriminate H. }
  destruct data as [|r data]; [done |].
  unfold Machine.detect_data_patterns. rewrite scan_all.
  set (patterns0 := {| email_domains := ∅; password_lengths := [];
                       date_range := (None, None); password_stats := None |}).
  destruct (scanned_all (r :: data) [] patterns0 counts_nil) as (Hc & Hl & _ & Hs).
  set (patterns := foldl (λ p r0, scanned r0 p) patterns0 (r :: data)) in *.
  change (password_lengths patterns0 ++ lengths_of (r :: data))
    with (lengths_of (r :: data)) in Hl.
  change ([] ++ domain_keys between_ats (r :: data))
    with (domain_keys between_ats (r :: data)) in Hc.
  change (password_stats patterns0) with (@None PasswordStats) in Hs.
  cbn [mbind result_bind]. exists patterns. split_and!; [done | done | done |].
  rewrite Hl.
  pose proof (lengths_of_nonneg (r :: data)) as Hpos.
  destruct (lengths_of (r :: data)) as [|x ls] eqn:Hls; [done |].
  destruct (foldl_min_spec ls x) as (Hmin & Hle).
  destruct (foldl_max_spec ls x) as (Hmax & Hge).
  exists (foldl Z.min x ls), (foldl Z.max x ls).
  split_and!; [done | done | | |].
  - intros y Hy. split; [by apply Hle | by apply Hge].
  - unfold Machine.true_div.
    replace (Z.of_nat (length (x :: ls)) =? 0) with false
      by (symmetry; apply Z.eqb_neq; simpl; lia).
    destruct (Binary64.round _); reflexivity.
  - intros Hhi.
    pose proof (sum_bounds (x :: ls) 0 (foldl Z.max x ls)) as Hb.
    specialize (Hb (λ y Hy, conj (Hpos y Hy) (Hge y Hy)) 0).
    fold (py_sum (x :: ls)) in Hb.
    destruct (true_div_returns (py_sum (x :: ls)) (Z.of_nat (length (x :: ls))))
      as (avg & _ & Havg); [simpl; lia | | by exists avg].
    unfold ssize_max in Hhi.
    assert (2 ^ 63 ≤ 2 ^ 1000) by (apply Z.pow_le_mono_r; lia).
    assert (0 < Z.of_nat (length (x :: ls))) by (simpl; lia).
    nia.
Qed.

(** C8 as stated fails: for an address with a second [@] the
    histogram holds the piece between the two, not all that follows the
    first; and for the empty batch there is neither a histogram nor a
    sequence of lengths. *)
Lemma domain_stops_at_second_at :
  (∃ patterns,
     Machine.detect_data_patterns two_ats = Ok (Some patterns)
     ∧ after_first_at (chars "a@b@c") = Some (chars "b@c")
     ∧ email_domains patterns !! "b@c" = None
     ∧ email_domains patterns !! "b" = Some 1
     ∧ ¬ counts (domain_keys after_first_at two_ats) (email_domains patterns))
  ∧ Machine.detect_data_patterns [] = Ok None.
Proof.
  split; [| reflexivity].
  eexists. split_and!; [vm_compute; reflexivity | reflexivity | reflexivity
                       | reflexivity |].
  intros H. specialize (H "b@c"). vm_compute in H. discriminate.
Qed.

(** ** Verdicts that are booleans *)

Lemma field_verdict_bool (now : datetime) (field value : string) (v : verdict) :
  field_verdict now field value = Some v → field ≠ "date" →
  ∃ b, valid v = PBool b.
Proof.
  unfold field_verdict. intros Hv Hne.
  repeat case_bool_decide; try done; injection Hv as <-; by eexists.
Qed.

(** Without a [date] field every verdict is a boolean, and the record
    is counted as passed exactly when all of them are [True]. *)
Lemma passed_iff_all_true_without_date (now : datetime) (record : record) :
  record !! "date" = None →
  ∃ validated,
    _validate_record now record = Ok validated
    ∧ (all_valid validated = true ↔ all_verdicts_true validated).
Proof.
  intros Hnone. destruct (validate_record_lookup now record) as (validated & Hv & Hl).
  exists validated. split; [done |]. rewrite all_valid_spec.
  assert (Hbool : ∀ field v, validated !! field = Some v → ∃ b, valid v = PBool b).
  { intros field v Hf. rewrite Hl in Hf.
    destruct (record !! field) as [value|] eqn:Hr; [| done]. simpl in Hf.
    apply (field_verdict_bool now field value v Hf). intros ->. congruence. }
  split; intros H field v Hf; specialize (H field v Hf); simpl in *;
    destruct (Hbool field v Hf) as [b Hb]; rewrite Hb in *; simpl in *.
  - by rewrite H.
  - by injection H.
Qed.

(** * Further properties *)

(** ** Phone numbers *)

Lemma phone_digits (phone : string) :
  len (re_sub_cls_empty (λ c, negb (is_digit c)) phone) = count_digits phone.
Proof.
  unfold len, re_sub_cls_empty, count_digits. rewrite chars_of_chars.
  do 2 f_equal. apply list_filter_iff. intros c. by destruct (is_digit c).
Qed.

(** X1.  [validate_phone] accepts exactly the strings with ten to
    fifteen decimal digits, whatever else they contain; a string of
    fewer than ten characters is never accepted. *)
Theorem validate_phone_digit_count (phone : string) :
  (validate_phone phone = true ↔ 10 ≤ count_digits phone ≤ 15)
  ∧ (validate_phone phone = true → 10 ≤ len phone).
Proof.
  assert (H : validate_phone phone = true ↔ 10 ≤ count_digits phone ≤ 15).
  { unfold validate_phone. cbv zeta. rewrite phone_digits.
    rewrite andb_true_iff, !Z.leb_le. done. }
  split; [done |]. intros Hv. apply H in Hv as [Hlo _].
  unfold count_digits, len in *.
  pose proof (length_filter (λ c, is_digit c = true) (chars phone)). lia.
Qed.

(** X2.  Characters that are not digits do not count: inserting one
    anywhere in a string leaves the answer of [validate_phone] as it
    is. *)
Theorem validate_phone_ignores_formatting (a b : string) (c : ascii) :
  is_digit c = false →
  validate_phone (a +:+ String c b) = validate_phone (a +:+ b).
Proof.
  intros Hc. unfold validate_phone. cbv zeta. rewrite !phone_digits.
  unfold count_digits. rewrite !chars_app. simpl.
  rewrite !filter_app, filter_cons, decide_False by congruence. done.
Qed.

Lemma validate_phone_ignores_formatting_witness :
  is_digit "-" = false
  ∧ validate_phone ("123-456" +:+ String "-" "7890")
    = validate_phone ("123-456" +:+ "7890").
Proof.
  split; [reflexivity |].
  apply (validate_phone_ignores_formatting "123-456" "7890" "-"). reflexivity.
Defined.

(** ** The password scorer, continued *)

(** Case analysis on the six criteria of [validate_password]: the
    length check [a], the class checks [u l d s], the common pattern
    [c]. *)
Ltac password_cases password min_length a u l d s c :=
  unfold validate_password, password_checks, long_enough, has_common in *;
  rewrite ?re_search_cls in *;
  generalize dependent
    (existsb (λ pattern, str_in pattern (lower password)) common_patterns);
  generalize dependent (existsb is_special (chars password));
  generalize dependent (existsb is_digit (chars password));
  generalize dependent (existsb is_lower (chars password));
  generalize dependent (existsb is_upper (chars password));
  generalize dependent (len password >=? min_length);
  intros a u l d s c.

(** A character whose lowercase form starts a common pattern is a
    letter or a digit. *)
Lemma lower_char_pattern_start (c : ascii) :
  one_of (chars "1pqa") (lower_char c) = true →
  is_upper c || is_lower c || is_digit c = true.
Proof.
  destruct c as [[] [] [] [] [] [] [] []]; vm_compute; congruence.
Qed.

Lemma chars_lower (s : string) : chars (lower s) = lower_char <$> chars s.
Proof. unfold lower. apply chars_of_chars. Qed.

(** A password with a common pattern has a letter or a digit. *)
Lemma common_pattern_class (password : string) :
  has_common password = true →
  existsb is_upper (chars password) || existsb is_lower (chars password)
  || existsb is_digit (chars password) = true.
Proof.
  unfold has_common. intros H.
  apply existsb_elem_of in H as (p & Hp & Hin).
  apply str_in_spec in Hin as (x & y & Hs). rewrite chars_lower in Hs.
  assert (Hstart : ∃ c0 rest, chars p = c0 :: rest ∧ one_of (chars "1pqa") c0 = true).
  { unfold common_patterns in Hp.
    repeat (apply elem_of_cons in Hp as [-> | Hp]; [by do 2 eexists |]).
    by apply elem_of_nil in Hp. }
  destruct Hstart as (c0 & rest & Hc0 & Hone). rewrite Hc0 in Hs.
  assert (Hc : ∃ c, c ∈ chars password ∧ lower_char c = c0).
  { assert (Hin : c0 ∈ lower_char <$> chars password).
    { rewrite Hs. apply elem_of_app. right. apply elem_of_cons. by left. }
    apply list_elem_of_fmap in Hin as (c & -> & Hin). by exists c. }
  destruct Hc as (c & Hc & <-). apply lower_char_pattern_start in Hone.
  apply orb_true_iff in Hone as [Hone | Hone];
    [apply orb_true_iff in Hone as [Hone | Hone] |];
    rewrite !orb_true_iff, !existsb_elem_of; eauto 6.
Qed.

(** X3.  The score lies between -11.25 and 100: a password with a
    common pattern has a letter or a digit, so the penalty of 30 is
    never applied to a score below 18.75. *)
Theorem validate_password_score_range (password : string) (min_length : Z) :
  (-11.25 <= score (validate_password password min_length))%Q
  ∧ (score (validate_password password min_length) <= 100)%Q.
Proof.
  pose proof (common_pattern_class password) as Hc.
  password_cases password min_length a u l d s c. intros Hc.
  destruct a, u, l, d, s, c; simpl in *;
    try (specialize (Hc eq_refl); discriminate Hc);
    split; apply Qle_bool_iff; reflexivity.
Qed.

(** X4.  The rating is Excellent exactly when the feedback is empty,
    and exactly when the length check and the four class checks pass
    and there is no common pattern. *)
Theorem excellent_iff_no_feedback (password : string) (min_length : Z) :
  let r := validate_password password min_length in
  (rating r = "Excellent" ↔ feedback r = [])
  ∧ (rating r = "Excellent"
     ↔ long_enough password min_length = true
       ∧ checks_passed r = 4
       ∧ has_common password = false).
Proof.
  password_cases password min_length a u l d s c.
  destruct a, u, l, d, s, c; simpl; split; split; intros H;
    first [done | by destruct H as (? & ? & ?)].
Qed.

(** X5.  There is one feedback message per criterion missed: one for
    the length, one for each class absent, one for a common pattern. *)
Theorem feedback_count (password : string) (min_length : Z) :
  let r := validate_password password min_length in
  Z.of_nat (length (feedback r))
  = (1 - Z.b2z (long_enough password min_length))
    + (4 - checks_passed r)
    + Z.b2z (has_common password).
Proof.
  password_cases password min_length a u l d s c.
  destruct a, u, l, d, s, c; reflexivity.
Qed.

(** X6.  A password with fewer than two of the four character classes
    is rated Weak and scores below 50, whatever its length: the
    verdict of its field is not valid. *)
Theorem one_class_is_weak (password : string) (min_length : Z) :
  let r := validate_password password min_length in
  checks_passed r ≤ 1 →
  rating r = "Weak" ∧ (score r < 50)%Q ∧ Qle_bool 50 (score r) = false.
Proof.
  password_cases password min_length a u l d s c.
  destruct a, u, l, d, s, c; simpl; intros H; try lia; done.
Qed.

Lemma one_class_is_weak_witness :
  checks_passed (validate_password "12345678901234567890" default_min_length) ≤ 1
  ∧ rating (validate_password "12345678901234567890" default_min_length) = "Weak".
Proof.
  split; [vm_compute; discriminate |].
  apply (one_class_is_weak "12345678901234567890" default_min_length).
  vm_compute. discriminate.
Defined.

(** X7.  Raising the minimum length never raises the score. *)
Theorem score_antitone_in_min_length (password : string) (m m' : Z) :
  m ≤ m' →
  (score (validate_password password m') <= score (validate_password password m))%Q.
Proof.
  intros Hm.
  assert (Ha : long_enough password m' = true → long_enough password m = true).
  { unfold long_enough. rewrite !Z.geb_leb, !Z.leb_le. lia. }
  unfold validate_password, password_checks, long_enough in *.
  rewrite ?re_search_cls.
  generalize (existsb (λ pattern, str_in pattern (lower password)) common_patterns).
  generalize (existsb is_special (chars password)).
  generalize (existsb is_digit (chars password)).
  generalize (existsb is_lower (chars password)).
  generalize (existsb is_upper (chars password)).
  intros u l d s c.
  destruct (len password >=? m'), (len password >=? m);
    try (specialize (Ha eq_refl); discriminate Ha);
    destruct u, l, d, s, c; apply Qle_bool_iff; reflexivity.
Qed.

Lemma score_antitone_in_min_length_witness :
  8 ≤ 12
  ∧ (score (validate_password "Pass123!" 12) <= score (validate_password "Pass123!" 8))%Q.
Proof.
  split; [lia |]. apply (score_antitone_in_min_length "Pass123!" 8 12). lia.
Defined.

(** ** The email validator, continued *)

Lemma validate_email_true (email msg : string) :
  validate_email email = (true, msg) → email_shape_nl email.
Proof.
  unfold validate_email. rewrite <- email_match_shape.
  destruct (re_match email_pattern email); simpl; [done |]. congruence.
Qed.

Lemma email_shape_nl_chars (email : string) :
  email_shape_nl email →
  ∃ tail, (tail = [] ∨ tail = [newline]) ∧ shaped tail (chars email).
Proof.
  intros [H | (s & -> & H)].
  - exists []. split; [by left | done].
  - exists [newline]. split; [by right |].
    apply shaped_newline. exists (chars s). by rewrite chars_app.
Qed.

Lemma no_at_filter (l : list ascii) :
  forallb (λ c, negb (bool_decide (c = "@"%char))) l = true →
  filter (λ c, c = "@"%char) l = [] ∧ up_to_at l = l
  ∧ ∀ r, after_first_at (l ++ "@"%char :: r) = Some r.
Proof.
  induction l as [|c l IH]; simpl; [done |].
  rewrite andb_true_iff, negb_true_iff, bool_decide_eq_false.
  intros [Hc Hl]. destruct (IH Hl) as (Hf & Hu & Ha).
  rewrite filter_cons, decide_False, !bool_decide_eq_false_2 by done.
  split_and!; [done | by rewrite Hu | done].
Qed.

Lemma forallb_weaken {A : Type} (p q : A → bool) (l : list A) :
  (∀ x, p x = true → q x = true) → forallb p l = true → forallb q l = true.
Proof.
  intros Hpq. rewrite !forallb_forall. intros H x Hx. by apply Hpq, H.
Qed.

Lemma local_char_not_at (c : ascii) :
  email_local_char c = true → negb (bool_decide (c = "@"%char)) = true.
Proof. destruct c as [[] [] [] [] [] [] [] []]; vm_compute; congruence. Qed.

Lemma domain_char_not_at (c : ascii) :
  email_domain_char c = true → negb (bool_decide (c = "@"%char)) = true.
Proof. destruct c as [[] [] [] [] [] [] [] []]; vm_compute; congruence. Qed.

Lemma alpha_not_at (c : ascii) :
  is_alpha c = true → negb (bool_decide (c = "@"%char)) = true.
Proof. destruct c as [[] [] [] [] [] [] [] []]; vm_compute; congruence. Qed.

(** X8.  An address [validate_email] accepts has at least six
    characters and exactly one [@]; what follows the [@] holds a dot and
    is, whole, the key under which [detect_data_patterns] counts the
    address. *)
Theorem valid_email_one_at (email msg : string) :
  validate_email email = (true, msg) →
  6 ≤ len email
  ∧ count_ats email = 1%nat
  ∧ ∃ domain,
      after_first_at (chars email) = Some domain
      ∧ between_ats (chars email) = Some domain
      ∧ "."%char ∈ domain.
Proof.
  intros Hv. apply validate_email_true, email_shape_nl_chars in Hv
    as (tail & Htail & local & domain & tld & Hs & Hnl & Hl & Hnd & Hd & Hnt & Ht).
  apply (forallb_weaken _ _ _ local_char_not_at) in Hl.
  assert (Hrest : forallb (λ c, negb (bool_decide (c = "@"%char)))
                    (domain ++ "."%char :: tld ++ tail) = true).
  { rewrite forallb_app. simpl. rewrite forallb_app.
    rewrite (forallb_weaken _ _ _ domain_char_not_at Hd).
    rewrite (forallb_weaken _ _ _ alpha_not_at Ht).
    by destruct Htail as [-> | ->]. }
  destruct (no_at_filter local Hl) as (Hfl & _ & Hal).
  destruct (no_at_filter _ Hrest) as (Hfr & Hur & _).
  unfold len, count_ats, between_ats. rewrite Hs. split_and!.
  - repeat (rewrite ?length_app; cbn [length]). lia.
  - by rewrite filter_app, filter_cons, decide_True, Hfl, Hfr.
  - exists (domain ++ "."%char :: tld ++ tail). rewrite Hal. simpl.
    split_and!; [done | by rewrite Hur |].
    apply elem_of_app. right. apply elem_of_cons. by left.
Qed.

Lemma valid_email_one_at_witness :
  validate_email "user1@example.com" = (true, "Valid email")
  ∧ count_ats "user1@example.com" = 1%nat.
Proof.
  split; [vm_compute; reflexivity |].
  apply (valid_email_one_at "user1@example.com" "Valid email").
  vm_compute. reflexivity.
Defined.

(** ** The date validator, continued *)

Lemma consumes_weaken {A : Type} (p : parser A) (lo hi lo' hi' : nat) :
  (lo' ≤ lo)%nat → (hi ≤ hi')%nat → consumes p lo hi → consumes p lo' hi'.
Proof.
  intros Hlo Hhi Hp s v rest Hin. destruct (Hp s v rest Hin) as (pre & -> & Hn).
  exists pre. split; [done | lia].
Qed.

Lemma consumes_app {A : Type} (p q : parser A) (lo hi : nat) :
  consumes p lo hi → consumes q lo hi → consumes (λ s, p s ++ q s) lo hi.
Proof.
  intros Hp Hq s v rest Hin. apply elem_of_app in Hin as [Hin | Hin]; eauto.
Qed.

Lemma consumes_one (p : ascii → bool) : consumes (one p) 1 1.
Proof.
  intros [|a s] v rest Hin; simpl in Hin; [by apply elem_of_nil in Hin |].
  destruct (p a); [| by apply elem_of_nil in Hin].
  apply list_elem_of_singleton in Hin. injection Hin as -> ->.
  exists [a]. split; [done | simpl; lia].
Qed.

Lemma consumes_two (p1 p2 : ascii → bool) : consumes (two p1 p2) 2 2.
Proof.
  intros [|a [|b s]] v rest Hin; simpl in Hin; try by apply elem_of_nil in Hin.
  destruct (p1 a && p2 b); [| by apply elem_of_nil in Hin].
  apply list_elem_of_singleton in Hin. injection Hin as -> ->.
  exists [a; b]. split; [done | simpl; lia].
Qed.

Lemma consumes_lit (c : ascii) : consumes (match_lit c) 1 1.
Proof.
  intros [|a s] v rest Hin; simpl in Hin; [by apply elem_of_nil in Hin |].
  destruct (is_chr c a); [| by apply elem_of_nil in Hin].
  apply list_elem_of_singleton in Hin. injection Hin as -> ->.
  exists [a]. split; [done | simpl; lia].
Qed.

Lemma consumes_Y : consumes match_Y 4 4.
Proof.
  intros [|a [|b [|c [|d s]]]] v rest Hin; simpl in Hin;
    try by apply elem_of_nil in Hin.
  destruct (is_digit a && is_digit b && is_digit c && is_digit d);
    [| by apply elem_of_nil in Hin].
  apply list_elem_of_singleton in Hin. injection Hin as -> ->.
  exists [a; b; c; d]. split; [done | simpl; lia].
Qed.

Lemma consumes_m : consumes match_m 1 2.
Proof.
  unfold match_m. repeat apply consumes_app.
  - apply (consumes_weaken _ 2 2); [lia | lia | apply consumes_two].
  - apply (consumes_weaken _ 2 2); [lia | lia | apply consumes_two].
  - apply (consumes_weaken _ 1 1); [lia | lia | apply consumes_one].
Qed.

Lemma consumes_d : consumes match_d 1 2.
Proof.
  unfold match_d. repeat apply consumes_app.
  - apply (consumes_weaken _ 2 2); [lia | lia | apply consumes_two].
  - apply (consumes_weaken _ 2 2); [lia | lia | apply consumes_two].
  - apply (consumes_weaken _ 2 2); [lia | lia | apply consumes_two].
  - apply (consumes_weaken _ 1 1); [lia | lia | apply consumes_one].
  - intros [|a s] v rest Hin; [by apply elem_of_nil in Hin |].
    destruct (is_chr " " a); [| by apply elem_of_nil in Hin].
    apply consumes_one in Hin as (pre & -> & Hn).
    exists (a :: pre). split; [done | simpl; lia].
Qed.

(** Every match of the pattern of the format covers eight to ten
    characters. *)
Lemma match_ymd_consumes (s : list ascii) (y m d : Z) (rest : list ascii) :
  (y, m, d, rest) ∈ match_ymd s →
  ∃ pre, s = pre ++ rest ∧ (8 ≤ length pre ≤ 10)%nat.
Proof.
  unfold match_ymd. intros H.
  apply list_elem_of_bind in H as ([y' s1] & H & H1).
  apply list_elem_of_bind in H as ([[] s2] & H & H2).
  apply list_elem_of_bind in H as ([m' s3] & H & H3).
  apply list_elem_of_bind in H as ([[] s4] & H & H4).
  apply list_elem_of_bind in H as ([d' s5] & H & H5).
  apply list_elem_of_singleton in H. injection H as -> -> -> ->.
  apply consumes_Y in H1 as (p1 & -> & Hn1).
  apply consumes_lit in H2 as (p2 & -> & Hn2).
  apply consumes_m in H3 as (p3 & -> & Hn3).
  apply consumes_lit in H4 as (p4 & -> & Hn4).
  apply consumes_d in H5 as (p5 & -> & Hn5).
  exists (p1 ++ p2 ++ p3 ++ p4 ++ p5). split.
  - by rewrite <- !app_assoc.
  - rewrite !length_app. lia.
Qed.

(** X9.  A string [strptime] accepts has eight to ten characters and
    denotes a day of the calendar, taken at midnight: the year is from
    1 to 9999, the month from 1 to 12, the day within the month. *)
Theorem strptime_sound (date_string : string) (parsed : datetime) :
  strptime date_string = Ok parsed →
  8 ≤ len date_string ≤ 10
  ∧ date_in_range (year parsed) (month parsed) (day parsed) = true
  ∧ parsed = midnight (year parsed) (month parsed) (day parsed).
Proof.
  unfold strptime. destruct (match_ymd (chars date_string))
    as [|[[[y m] d] rest] others] eqn:Hm; [done |].
  case_bool_decide as Hrest; [done |].
  destruct (date_in_range y m d) eqn:Hrange; [| done].
  intros [= <-]. simpl. split_and!; [| | done | done].
  all: destruct (match_ymd_consumes (chars date_string) y m d rest)
         as (pre & Hs & Hn); [rewrite Hm; apply elem_of_cons; by left |].
  all: assert (rest = []) as -> by (destruct rest; [done | by destruct Hrest]).
  all: unfold len; rewrite Hs, app_nil_r; lia.
Qed.

Lemma strptime_sound_witness :
  strptime "2023-01-15" = Ok (midnight 2023 1 15)
  ∧ 8 ≤ len "2023-01-15" ≤ 10.
Proof.
  split; [vm_compute; reflexivity |].
  apply (strptime_sound "2023-01-15" (midnight 2023 1 15)).
  vm_compute. reflexivity.
Defined.

Lemma digit_char_spec (n : Z) :
  0 ≤ n ≤ 9 → is_digit (digit_char n) = true ∧ digit_value (digit_char n) = n.
Proof.
  intros Hn. assert (Hin : n ∈ seqZ 0 10) by (apply elem_of_seqZ; lia).
  vm_compute seqZ in Hin.
  repeat (apply elem_of_cons in Hin as [-> | Hin]; [by vm_compute |]).
  by apply elem_of_nil in Hin.
Qed.

Lemma match_Y_four_digits (y : Z) (rest : list ascii) :
  0 ≤ y ≤ 9999 → match_Y (four_digits y ++ rest) = [(y, rest)].
Proof.
  intros Hy. unfold four_digits, match_Y. cbn [app].
  destruct (digit_char_spec (y / 1000)) as (-> & ->);
    [Z.div_mod_to_equations; lia |].
  destruct (digit_char_spec (y / 100 mod 10)) as (-> & ->);
    [Z.div_mod_to_equations; lia |].
  destruct (digit_char_spec (y / 10 mod 10)) as (-> & ->);
    [Z.div_mod_to_equations; lia |].
  destruct (digit_char_spec (y mod 10)) as (-> & ->);
    [Z.div_mod_to_equations; lia |].
  cbn [andb]. do 2 f_equal. Z.div_mod_to_equations. lia.
Qed.

Lemma match_m_digits (short : bool) (m : Z) (rest : list ascii) :
  1 ≤ m ≤ 12 →
  ∃ others,
    match_m (digits_of short m ++ "-"%char :: rest) = (m, "-"%char :: rest) :: others.
Proof.
  intros Hm. assert (Hin : m ∈ seqZ 1 12) by (apply elem_of_seqZ; lia).
  vm_compute seqZ in Hin.
  repeat (apply elem_of_cons in Hin as [-> | Hin]; [destruct short; by eexists |]).
  by apply elem_of_nil in Hin.
Qed.

Lemma match_d_digits (short : bool) (d : Z) :
  1 ≤ d ≤ 31 → ∃ others, match_d (digits_of short d) = (d, []) :: others.
Proof.
  intros Hd. assert (Hin : d ∈ seqZ 1 31) by (apply elem_of_seqZ; lia).
  vm_compute seqZ in Hin.
  repeat (apply elem_of_cons in Hin as [-> | Hin]; [destruct short; by eexists |]).
  by apply elem_of_nil in Hin.
Qed.

Lemma date_in_range_bounds (y m d : Z) :
  date_in_range y m d = true → 1 ≤ y ≤ 9999 ∧ 1 ≤ m ≤ 12 ∧ 1 ≤ d ≤ 31.
Proof.
  unfold date_in_range, days_in_month. rewrite !andb_true_iff, !Z.leb_le.
  intros (((((? & ?) & ?) & ?) & ?) & Hd).
  destruct (m =? 2); [destruct (is_leap y) |]; [lia | lia |].
  case_bool_decide; lia.
Qed.

Lemma match_lit_cons (c : ascii) (rest : list ascii) :
  match_lit c (c :: rest) = [((), rest)].
Proof. unfold match_lit, is_chr. by rewrite bool_decide_eq_true_2. Qed.

Lemma match_ymd_date_text (short_month short_day : bool) (y m d : Z) :
  1 ≤ y ≤ 9999 → 1 ≤ m ≤ 12 → 1 ≤ d ≤ 31 →
  ∃ others,
    match_ymd (four_digits y ++ "-"%char :: digits_of short_month m
               ++ "-"%char :: digits_of short_day d)
    = (y, m, d, []) :: others.
Proof.
  intros Hy Hm Hd. unfold match_ymd.
  rewrite match_Y_four_digits by lia. cbn [mbind list_bind app].
  rewrite match_lit_cons. cbn [mbind list_bind app].
  destruct (match_m_digits short_month m (digits_of short_day d)) as (om & ->);
    [done |].
  cbn [mbind list_bind app]. rewrite match_lit_cons. cbn [mbind list_bind app].
  destruct (match_d_digits short_day d) as (od & ->); [done |].
  cbn [mbind list_bind app]. by eexists.
Qed.

(** X10.  The text of every day of the calendar from year 1 to year
    9999, written as year-month-day with a four-digit year and with or
    without the leading zero of the month and of the day, is parsed to
    that day; [validate_date] accepts it unless the day is later than
    [now]. *)
Theorem date_text_round_trip (now : datetime) (short_month short_day : bool)
    (y m d : Z) :
  date_in_range y m d = true →
  strptime (date_text short_month short_day y m d) = Ok (midnight y m d)
  ∧ validate_date now (date_text short_month short_day y m d)
    = Ok (if datetime_gt (midnight y m d) now then (false, None)
          else (true, Some (midnight y m d))).
Proof.
  intros Hrange. destruct (date_in_range_bounds y m d Hrange) as (Hy & Hm & Hd).
  assert (Hp : strptime (date_text short_month short_day y m d)
               = Ok (midnight y m d)).
  { unfold strptime, date_text. rewrite chars_of_chars.
    destruct (match_ymd_date_text short_month short_day y m d Hy Hm Hd)
      as (others & ->).
    rewrite bool_decide_eq_false_2 by (by intros H). by rewrite Hrange. }
  split; [done |]. unfold validate_date. rewrite Hp. simpl.
  by destruct (datetime_gt (midnight y m d) now).
Qed.

Lemma date_text_round_trip_witness :
  date_in_range 2024 2 29 = true
  ∧ date_text true false 2024 2 29 = "2024-2-29"
  ∧ strptime (date_text true false 2024 2 29) = Ok (midnight 2024 2 29).
Proof.
  split; [reflexivity |]. split; [reflexivity |].
  apply (date_text_round_trip a_moment true false 2024 2 29). reflexivity.
Defined.

Lemma lex_gt_false_trans (a : list Z) :
  ∀ b c, length a = length b → length b = length c →
    lex_gt a b = false → lex_gt b c = false → lex_gt a c = false.
Proof.
  induction a as [|x a IH]; intros [|y b] [|z c] Hab Hbc; simpl in *; try done.
  rewrite !orb_false_iff, !andb_false_iff, !Z.ltb_ge, !Z.eqb_neq.
  intros [Hyx Hab'] [Hzy Hbc']. split; [lia |].
  destruct (decide (x = z)) as [-> | Hne]; [| by left].
  right. assert (y = z) as -> by lia.
  apply (IH b c); [lia | lia | by destruct Hab' | by destruct Hbc'].
Qed.

Lemma validate_date_accepts (now : datetime) (date_str : string) (parsed : datetime) :
  validate_date now date_str = Ok (true, Some parsed)
  ↔ strptime date_str = Ok parsed ∧ datetime_gt parsed now = false.
Proof.
  unfold validate_date. destruct (strptime date_str) as [d | e] eqn:Hp; simpl.
  - destruct (datetime_gt d now) eqn:Hgt; simpl.
    + split; [done | intros [[= ->] ?]; congruence].
    + split; [intros [= ->]; done | intros [[= ->] _]; done].
  - split; [by destruct e | by intros [? _]].
Qed.

(** X11.  [validate_date] accepts a string only if it parses to a
    date that is not later than [now], and what it accepts at one
    moment it accepts, with the same date, at every moment that is not
    earlier. *)
Theorem validate_date_stays_valid (now now' : datetime) (date_str : string)
    (parsed : datetime) :
  validate_date now date_str = Ok (true, Some parsed) →
  datetime_gt now now' = false →
  strptime date_str = Ok parsed
  ∧ datetime_gt parsed now = false
  ∧ validate_date now' date_str = Ok (true, Some parsed).
Proof.
  intros Hv Hnow. apply validate_date_accepts in Hv as [Hp Hgt].
  split_and!; [done | done |]. apply validate_date_accepts. split; [done |].
  unfold datetime_gt in *.
  by apply (lex_gt_false_trans _ (datetime_fields now)).
Qed.

Lemma validate_date_stays_valid_witness :
  validate_date a_moment "2023-01-15" = Ok (true, Some (midnight 2023 1 15))
  ∧ datetime_gt a_moment (midnight 2030 1 1) = false
  ∧ validate_date (midnight 2030 1 1) "2023-01-15"
    = Ok (true, Some (midnight 2023 1 15)).
Proof.
  split; [vm_compute; reflexivity |]. split; [reflexivity |].
  apply (validate_date_stays_valid a_moment (midnight 2030 1 1) "2023-01-15"
           (midnight 2023 1 15)); vm_compute; reflexivity.
Defined.

(** ** The record validator, continued *)

(** X12.  [_validate_record] returns a verdict for the fields of the
    record that are among the four known ones, and for no other field:
    an unknown field is dropped without an error. *)
Theorem validate_record_fields (now : datetime) (record : record) :
  ∃ validated,
    _validate_record now record = Ok validated
    ∧ ∀ field,
        is_Some (validated !! field)
        ↔ is_Some (record !! field) ∧ field ∈ known_fields.
Proof.
  destruct (validate_record_lookup now record) as (validated & Hv & Hl).
  exists validated. split; [done |]. intros field. rewrite Hl.
  destruct (record !! field) as [value|] eqn:Hr; simpl.
  - rewrite verdict_fields. split; [by eauto | by intros [_ ?]].
  - split; [by intros [? ?] | by intros [[? ?] _]].
Qed.

(** X13.  The verdict of a field depends on the value of that field
    only: setting one field of a record leaves the verdicts of all other
    fields as they were, and gives the set field the verdict of its new
    value. *)
Theorem validate_record_insert (now : datetime) (record : record)
    (field value : string) :
  ∃ validated validated',
    _validate_record now record = Ok validated
    ∧ _validate_record now (<[field := value]> record) = Ok validated'
    ∧ validated' !! field = field_verdict now field value
    ∧ ∀ other, other ≠ field → validated' !! other = validated !! other.
Proof.
  destruct (validate_record_lookup now record) as (validated & Hv & Hl).
  destruct (validate_record_lookup now (<[field := value]> record))
    as (validated' & Hv' & Hl').
  exists validated, validated'. split_and!; [done | done | |].
  - by rewrite Hl', lookup_insert_eq.
  - intros other Hne. by rewrite Hl', Hl, lookup_insert_ne.
Qed.

Lemma truthy_date_result (r : bool * option datetime) :
  truthy (of_date_result r) = true.
Proof. done. Qed.

Lemma record_passes_iff (now : datetime) (record : record) :
  ∃ validated,
    _validate_record now record = Ok validated
    ∧ (all_valid validated = true ↔ acceptable record).
Proof.
  destruct (validate_record_lookup now record) as (validated & Hv & Hl).
  exists validated. split; [done |]. rewrite all_valid_spec. split.
  - intros Hall. split_and!.
    + intros email He. specialize (Hall "email"). rewrite Hl, He in Hall.
      by specialize (Hall _ eq_refl).
    + intros password Hp. specialize (Hall "password"). rewrite Hl, Hp in Hall.
      specialize (Hall _ eq_refl). by apply Qle_bool_iff.
    + intros phone Hp. specialize (Hall "phone"). rewrite Hl, Hp in Hall.
      by specialize (Hall _ eq_refl).
  - intros (Hemail & Hpassword & Hphone) field v Hf. rewrite Hl in Hf.
    destruct (record !! field) as [value|] eqn:Hr; [| done]. simpl in Hf.
    unfold field_verdict in Hf. repeat case_bool_decide; subst.
    + injection Hf as <-. simpl. by apply Hemail.
    + injection Hf as <-. simpl. by apply Qle_bool_iff, Hpassword.
    + destruct (validate_date now value); [| done]. by injection Hf as <-.
    + injection Hf as <-. simpl. by apply Hphone.
    + done.
Qed.

(** X14.  What decides whether a record is counted as passed: its
    email, if it has one, must be accepted by [validate_email], its
    password must score at least 50 and its phone must be accepted by
    [validate_phone]; then [passed] goes up by one, otherwise [failed]
    does.  A date field, like an unknown field, has no influence, and a
    record with none of the three fields is counted as passed. *)
Theorem record_counted_passed_iff (clock : nat → datetime) (record : record)
    (stats : Stats) :
  ∃ validated stats',
    process_batch clock [record] stats = (Ok [validated], stats')
    ∧ total stats' = total stats + 1
    ∧ (acceptable record →
       passed stats' = passed stats + 1 ∧ failed stats' = failed stats)
    ∧ (¬ acceptable record →
       passed stats' = passed stats ∧ failed stats' = failed stats + 1)
    ∧ (record !! "email" = None → record !! "password" = None →
       record !! "phone" = None → acceptable record).
Proof.
  destruct (record_passes_iff (clock 0%nat) record) as (validated & Hv & Hiff).
  exists validated, (update_statistics validated stats).
  destruct (update_statistics_spec validated stats) as (Ht & Hp & Hf & _).
  split_and!.
  - unfold process_batch. cbn [process_records]. by rewrite Hv.
  - done.
  - intros Hok. apply Hiff, all_valid_spec in Hok.
    rewrite decide_True in Hp, Hf by done. lia.
  - intros Hbad. rewrite <- Hiff, all_valid_spec in Hbad.
    rewrite decide_False in Hp, Hf by done. lia.
  - intros He Hp' Hph. unfold acceptable. rewrite He, Hp', Hph. done.
Qed.

(** ** The batch processor, continued *)

(** X15.  [process_batch] returns one verdict map per record, in the
    order of the input: the result at an index is what
    [_validate_record] returns for the record at that index. *)
Theorem process_batch_results (clock : nat → datetime) (data : list record)
    (stats : Stats) :
  ∃ results stats',
    process_batch clock data stats = (Ok results, stats')
    ∧ length results = length data
    ∧ ∀ i r, data !! i = Some r →
        ∃ v, results !! i = Some v ∧ _validate_record (clock i) r = Ok v.
Proof.
  exists (verdicts_of clock 0 data), (tally (verdicts_of clock 0 data) stats).
  split_and!; [apply process_batch_spec | apply verdicts_of_length |].
  intros i r Hi. destruct (verdicts_of_lookup clock data i r Hi) as (v & ? & ? & _).
  by exists v.
Qed.

Lemma verdicts_of_app (clock : nat → datetime) (data1 data2 : list record) :
  verdicts_of clock 0 (data1 ++ data2)
  = verdicts_of clock 0 data1
    ++ verdicts_of (λ i, clock (length data1 + i)%nat) 0 data2.
Proof.
  unfold verdicts_of. rewrite imap_app. f_equal.
Qed.

(** X16.  Splitting a batch changes nothing: processing [data1 ++ data2]
    in one call gives the results and leaves the statistics of
    processing [data1] and then [data2] on the same processor. *)
Theorem process_batch_app (clock : nat → datetime) (data1 data2 : list record)
    (stats : Stats) :
  ∃ results1 stats1 results2 stats2,
    process_batch clock data1 stats = (Ok results1, stats1)
    ∧ process_batch (λ i, clock (length data1 + i)%nat) data2 stats1
      = (Ok results2, stats2)
    ∧ process_batch clock (data1 ++ data2) stats
      = (Ok (results1 ++ results2), stats2).
Proof.
  do 4 eexists. split_and!; [apply process_batch_spec | apply process_batch_spec |].
  rewrite process_batch_spec, verdicts_of_app. unfold tally.
  by rewrite foldl_app.
Qed.

(** ** The statistics of a processor, continued *)



(** X18.  [process_batch] does not touch [pass_rate]: a value stored by
    an earlier [get_statistics] stays as it was while the total moves
    on with every non-empty batch, until [get_statistics] is called
    again. *)
Theorem process_batch_keeps_pass_rate (clock : nat → datetime)
    (data : list record) (stats : Stats) :
  ∃ results stats',
    process_batch clock data stats = (Ok results, stats')
    ∧ pass_rate stats' = pass_rate stats
    ∧ (data ≠ [] → total stats' ≠ total stats).
Proof.
  destruct (process_batch_counts clock data stats)
    as (results & stats' & Hrun & _ & Ht & _ & _ & Hr).
  exists results, stats'. split_and!; [done | done |].
  intros Hne. destruct data; [done |]. simpl in Ht. lia.
Qed.


(** ** Pattern detection, continued *)

Lemma detect_data_patterns_value (r : record) (data : list record) :
  ∃ patterns,
    detect_data_patterns (r :: data) = Ok (Some patterns)
    ∧ counts (domain_keys between_ats (r :: data)) (email_domains patterns)
    ∧ password_lengths patterns = lengths_of (r :: data)
    ∧ date_range patterns = (None, None)
    ∧ password_stats patterns
      = match lengths_of (r :: data) with
        | [] => None
        | x :: ls =>
            Some {| avg_length :=
                      (inject_Z (py_sum (x :: ls))
                       / inject_Z (Z.of_nat (length (x :: ls))))%Q;
                    min_length := foldl Z.min x ls;
                    max_length := foldl Z.max x ls |}
        end.
Proof.
  unfold detect_data_patterns. rewrite scan_all.
  set (patterns0 := {| email_domains := ∅; password_lengths := [];
                       date_range := (None, None); password_stats := None |}).
  destruct (scanned_all (r :: data) [] patterns0 counts_nil) as (Hc & Hl & Hd & Hs).
  set (patterns := foldl (λ p r0, scanned r0 p) patterns0 (r :: data)) in *.
  change (password_lengths patterns0 ++ lengths_of (r :: data))
    with (lengths_of (r :: data)) in Hl.
  change ([] ++ domain_keys between_ats (r :: data))
    with (domain_keys between_ats (r :: data)) in Hc.
  change (password_stats patterns0) with (@None PasswordStats) in Hs.
  change (date_range patterns0) with (@None datetime, @None datetime) in Hd.
  cbn [mbind result_bind]. rewrite Hl.
  destruct (lengths_of (r :: data)) as [|x ls] eqn:Hls.
  - exists patterns. by rewrite Hl.
  - unfold true_div.
    replace (Z.of_nat (length (x :: ls)) =? 0) with false
      by (symmetry; apply Z.eqb_neq; simpl; lia).
    cbn [mbind result_bind py_min py_max].
    eexists. split; [reflexivity |].
    cbn [email_domains password_lengths password_stats date_range]. done.
Qed.

Lemma length_omap_le {A B : Type} (f : A → option B) (l : list A) :
  (length (omap f l) ≤ length l)%nat.
Proof.
  induction l as [|x l IH]; csimpl; [lia |]. destruct (f x); csimpl; lia.
Qed.

(** X19.  What [detect_data_patterns] never computes and what it
    bounds: the [date_range] of the summary is always the pair of two
    [None], whatever dates the batch holds; there is at most one
    password length per record, none of them negative; and every count
    of the histogram is at least 1 and at most the size of the batch. *)
Theorem detect_data_patterns_bounds (r : record) (data : list record) :
  ∃ patterns,
    detect_data_patterns (r :: data) = Ok (Some patterns)
    ∧ date_range patterns = (None, None)
    ∧ (length (password_lengths patterns) ≤ length (r :: data))%nat
    ∧ Forall (λ x, 0 ≤ x) (password_lengths patterns)
    ∧ map_Forall (λ _ n, 1 ≤ n ≤ Z.of_nat (length (r :: data)))
                 (email_domains patterns).
Proof.
  destruct (detect_data_patterns_value r data) as (patterns & Hd & Hc & Hl & Hr & _).
  exists patterns. split_and!; [done | done | | |].
  - rewrite Hl. apply length_omap_le.
  - rewrite Hl. unfold lengths_of. apply Forall_forall. intros x Hx.
    apply list_elem_of_omap in Hx as (rec & _ & Hx).
    destruct (rec !! "password") as [p|]; [| done].
    injection Hx as <-. unfold len. lia.
  - intros d n Hn. rewrite Hc in Hn. cbv zeta in Hn.
    pose proof (length_filter (λ k, k = d) (domain_keys between_ats (r :: data))) as Hf.
    pose proof (length_omap_le
                  (λ r0 : record, email ← r0 !! "email";
                                  of_chars <$> between_ats (chars email))
                  (r :: data)) as Ho.
    unfold domain_keys in *.
    destruct (length (filter _ _)) as [|k] eqn:Hk; [done |].
    injection Hn as <-. lia.
Qed.



Lemma sum_Permutation (l l' : list Z) :
  l ≡ₚ l' → ∀ acc, foldl Z.add acc l = foldl Z.add acc l'.
Proof.
  induction 1 as [| x l l' _ IH | x y l | l l' l'' _ IH1 _ IH2]; intros acc; simpl.
  - done.
  - apply IH.
  - f_equal. lia.
  - by rewrite IH1.
Qed.

Lemma min_Permutation (x x' : Z) (ls ls' : list Z) :
  x :: ls ≡ₚ x' :: ls' → foldl Z.min x ls = foldl Z.min x' ls'.
Proof.
  intros Hp. destruct (foldl_min_spec ls x) as (Hin & Hle).
  destruct (foldl_min_spec ls' x') as (Hin' & Hle').
  rewrite Hp in Hin. rewrite <- Hp in Hin'.
  specialize (Hle _ Hin'). specialize (Hle' _ Hin). lia.
Qed.

Lemma max_Permutation (x x' : Z) (ls ls' : list Z) :
  x :: ls ≡ₚ x' :: ls' → foldl Z.max x ls = foldl Z.max x' ls'.
Proof.
  intros Hp. destruct (foldl_max_spec ls x) as (Hin & Hge).
  destruct (foldl_max_spec ls' x') as (Hin' & Hge').
  rewrite Hp in Hin. rewrite <- Hp in Hin'.
  specialize (Hge _ Hin'). specialize (Hge' _ Hin). lia.
Qed.

Lemma counts_Permutation (keys keys' : list string) (h h' : gmap string Z) :
  keys ≡ₚ keys' → counts keys h → counts keys' h' → h = h'.
Proof.
  intros Hp Hc Hc'. apply map_eq. intros d. rewrite Hc, Hc'. cbv zeta.
  assert (Hlen : length (filter (λ k, k = d) keys)
                 = length (filter (λ k, k = d) keys'))
    by (apply Permutation_length; by rewrite Hp).
  by rewrite Hlen.
Qed.

(** X21.  The order of the records does not matter to the summary:
    two batches that are permutations of each other get the same
    histogram and the same password statistics, and their sequences of
    password lengths are permutations of each other. *)
Theorem detect_data_patterns_permutation (data data' : list record) :
  data ≡ₚ data' →
  match detect_data_patterns data, detect_data_patterns data' with
  | Ok (Some patterns), Ok (Some patterns') =>
      email_domains patterns = email_domains patterns'
      ∧ password_lengths patterns ≡ₚ password_lengths patterns'
      ∧ password_stats patterns = password_stats patterns'
  | Ok None, Ok None => data = [] ∧ data' = []
  | _, _ => False
  end.
Proof.
  intros Hp. destruct data as [|r data], data' as [|r' data'].
  - done.
  - by apply Permutation_nil_cons in Hp.
  - symmetry in Hp. by apply Permutation_nil_cons in Hp.
  - destruct (detect_data_patterns_value r data) as (p & -> & Hc & Hl & _ & Hs).
    destruct (detect_data_patterns_value r' data') as (p' & -> & Hc' & Hl' & _ & Hs').
    assert (Hkeys : domain_keys between_ats (r :: data)
                    ≡ₚ domain_keys between_ats (r' :: data'))
      by (unfold domain_keys; by rewrite Hp).
    assert (Hlens : lengths_of (r :: data) ≡ₚ lengths_of (r' :: data'))
      by (unfold lengths_of; by rewrite Hp).
    split_and!.
    + by apply (counts_Permutation _ _ _ _ Hkeys).
    + by rewrite Hl, Hl'.
    + rewrite Hs, Hs'.
      destruct (lengths_of (r :: data)) as [|x ls],
               (lengths_of (r' :: data')) as [|x' ls'].
      * done.
      * by apply Permutation_nil_cons in Hlens.
      * symmetry in Hlens. by apply Permutation_nil_cons in Hlens.
      * unfold py_sum.
        rewrite (sum_Permutation _ _ Hlens), (min_Permutation _ _ _ _ Hlens),
          (max_Permutation _ _ _ _ Hlens), (Permutation_length Hlens).
        done.
Qed.

Lemma detect_data_patterns_permutation_witness :
  two_passwords ≡ₚ two_passwords_swapped
  ∧ ∃ patterns patterns',
      detect_data_patterns two_passwords = Ok (Some patterns)
      ∧ detect_data_patterns two_passwords_swapped = Ok (Some patterns')
      ∧ password_stats patterns = password_stats patterns'.
Proof.
  assert (Hp : two_passwords ≡ₚ two_passwords_swapped) by apply perm_swap.
  split; [done |].
  pose proof (detect_data_patterns_permutation _ _ Hp) as H.
  destruct (detect_data_patterns two_passwords) as [[p|]|]; [| done | done].
  destruct (detect_data_patterns two_passwords_swapped) as [[p'|]|]; [| done | done].
  exists p, p'. by destruct H as (_ & _ & ?).
Defined.

Lemma counts_default (keys : list string) (h : gmap string Z) (d : string) :
  counts keys h → default 0 (h !! d) = Z.of_nat (length (filter (λ k, k = d) keys)).
Proof.
  intros Hc. rewrite Hc. cbv zeta.
  by destruct (length (filter (λ k, k = d) keys)).
Qed.

(** X22.  The summary of two batches put together: the password
    lengths are those of the first batch followed by those of the
    second, and the count of every domain is the sum of its counts in
    the two (a domain absent from a histogram counting as 0). *)
Theorem detect_data_patterns_app (r1 r2 : record) (data1 data2 : list record) :
  ∃ patterns1 patterns2 patterns,
    detect_data_patterns (r1 :: data1) = Ok (Some patterns1)
    ∧ detect_data_patterns (r2 :: data2) = Ok (Some patterns2)
    ∧ detect_data_patterns ((r1 :: data1) ++ r2 :: data2) = Ok (Some patterns)
    ∧ password_lengths patterns
      = password_lengths patterns1 ++ password_lengths patterns2
    ∧ ∀ d, default 0 (email_domains patterns !! d)
           = default 0 (email_domains patterns1 !! d)
             + default 0 (email_domains patterns2 !! d).
Proof.
  destruct (detect_data_patterns_value r1 data1) as (p1 & Hd1 & Hc1 & Hl1 & _).
  destruct (detect_data_patterns_value r2 data2) as (p2 & Hd2 & Hc2 & Hl2 & _).
  destruct (detect_data_patterns_value r1 (data1 ++ r2 :: data2))
    as (p & Hd & Hc & Hl & _).
  exists p1, p2, p. split_and!; [done | done | done | |].
  - rewrite Hl, Hl1, Hl2. unfold lengths_of.
    change (r1 :: data1 ++ r2 :: data2) with ((r1 :: data1) ++ r2 :: data2).
    apply omap_app.
  - intros d.
    rewrite (counts_default _ _ d Hc), (counts_default _ _ d Hc1),
      (counts_default _ _ d Hc2).
    unfold domain_keys.
    change (r1 :: data1 ++ r2 :: data2) with ((r1 :: data1) ++ r2 :: data2).
    rewrite omap_app, filter_app, length_app. lia.
Qed.
